(** * Assembly dependency validator

    A shallow embedding of [scripts/validate-circular-dependencies.py]:
    the graph builder, the depth-first cycle detector, the shared-namespace
    isolation checker and the driver [main], followed by the properties
    of the validator that its specification states.

    Conventions of the embedding.
    - A Python [dict] is an association list in insertion order with
      unique keys: assigning to an existing key replaces the value in
      place, assigning to a new key appends the binding.
    - A Python [set] of names is a [gset string].
    - Exceptions are results [Raise e].  The interpreter's recursion
      limit is a parameter [recursion_limit], the number of nested calls
      of [dfs] it allows: one call more raises [RecursionError], which
      nothing in the script catches.
    - Printed text is a list of [line]s, one constructor per message;
      [main] gives the lines printed together with the value it returns
      or the exception that ends it. *)

From stdpp Require Import base decidable option list sets gmap strings sorting pretty.

Set Warnings "-clear-no-such-hyp".
Set Default Proof Using "Type".

Open Scope string_scope.
Open Scope list_scope.
Open Scope nat_scope.

(** ** Python dictionaries in insertion order *)

Module Dict.

Definition t (V : Type) : Type := list (string * V).

Definition keys {V} (d : t V) : list string := d.*1.

(** [d.get(k)] *)
Fixpoint get {V} (d : t V) (k : string) : option V :=
  match d with
  | [] => None
  | (k', v) :: d' => if decide (k' = k) then Some v else get d' k
  end.

(** [k in d] *)
Definition mem {V} (d : t V) (k : string) : bool := bool_decide (is_Some (get d k)).

(** [d[k] = v] *)
Fixpoint set {V} (d : t V) (k : string) (v : V) : t V :=
  match d with
  | [] => [(k, v)]
  | (k', v') :: d' => if decide (k' = k) then (k, v) :: d' else (k', v') :: set d' k v
  end.

(** [d.get(k, dflt)] *)
Definition get_default {V} (d : t V) (k : string) (dflt : V) : V :=
  default dflt (get d k).

End Dict.

(** ** Substring test: Python's [sub in s] on strings *)

Fixpoint contains (sub s : string) : bool :=
  String.prefix sub s ||
  match s with
  | EmptyString => false
  | String _ s' => contains sub s'
  end.

(** ** Manifests *)

(** The decoded JSON object of a manifest, as far as the validator reads
    it: the optional fields ["name"] and ["references"]. *)
Record json_data : Type := JsonData {
  data_name : option string;
  data_references : option (list string)
}.

(** The record [parse_asmdef] returns. *)
Record asmdef : Type := Asmdef {
  name : string;
  references : list string;
  path : string
}.

(** Messages printed by the script. *)
Inductive line : Type :=
| ErrorParsing (file_path : string) (e : string)
| Analyzing (root_path : string)
| FoundFiles (n : nat)
| Discovered (n : nat)
| AssemblyLine (name : string) (deps : nat)
| CheckingCycles
| CycleDetected
| CyclePath (cycle : list string)
| NoCycles
| ValidatingIsolation
| ViolationsHeader
| ViolationLine (violation : string)
| Isolated
| AllPassed.

(** Exceptions the modelled code can raise. *)
Inductive exn : Type := ValueError | KeyError | RecursionError.

Inductive result (A : Type) : Type :=
| Ok (a : A)
| Raise (e : exn).
Arguments Ok {A} a.
Arguments Raise {A} e.

(** ** Helpers of the Python runtime *)

(** [sorted(names)]: ascending by code point, which on UTF-8 encoded
    strings is the byte-wise lexicographic order of [String.leb]. *)
Definition name_le (a b : string) : Prop := String.leb a b = true.

#[global] Instance name_le_dec a b : Decision (name_le a b).
Proof. unfold name_le. apply _. Defined.

Definition sorted (names : list string) : list string :=
  merge_sort name_le names.

(** [l.index(x)]: position of the first occurrence, [None] standing for
    the [ValueError] raised when [x] is absent. *)
Fixpoint index (l : list string) (x : string) : option nat :=
  match l with
  | [] => None
  | y :: l' => if decide (y = x) then Some 0 else S <$> index l' x
  end.

(** Truth value of the result of [dfs] in [if cycle:]: [None] and the
    empty list are false. *)
Definition truthy {A} (cycle : option (list A)) : bool :=
  match cycle with
  | Some (_ :: _) => true
  | _ => false
  end.

(** ** Graph builder *)

Definition graph_t : Type := Dict.t (list string).

(** [graph.get(node, [])] *)
Definition graph_get (graph : graph_t) (node : string) : list string :=
  Dict.get_default graph node [].

(** [graph[name].append(ref)] on a [defaultdict(list)]: a missing key is
    first bound to the empty list, at the end of the dictionary. *)
Definition graph_append (graph : graph_t) (name ref : string) : graph_t :=
  Dict.set graph name (graph_get graph name ++ [ref]).

Section Loader.

(** The file system, seen through [open] and [json.load]: the decoded
    manifest, or the message of the exception raised on the way. *)
Variable json_load : string → string + json_data.

(** [parse_asmdef]: the record, or [None] after printing a warning. *)
Definition parse_asmdef (file_path : string) : option asmdef * list line :=
  match json_load file_path with
  | inr data =>
      (Some {| name := default "" (data_name data);
               references := default [] (data_references data);
               path := file_path |}, [])
  | inl e => (None, [ErrorParsing file_path e])
  end.

(** First pass of [build_dependency_graph]: collect all assemblies. *)
Definition collect_step (acc : Dict.t asmdef * list line) (file_path : string)
  : Dict.t asmdef * list line :=
  let '(assemblies, out) := acc in
  match parse_asmdef file_path with
  | (Some a, w) => (Dict.set assemblies (name a) a, out ++ w)
  | (None, w) => (assemblies, out ++ w)
  end.

Definition collect_assemblies (asmdef_files : list string) : Dict.t asmdef * list line :=
  fold_left collect_step asmdef_files ([], []).

End Loader.

(** Second pass: the inner loop over the references of one assembly. *)
Definition add_references (assemblies : Dict.t asmdef) (graph : graph_t)
    (name : string) (refs : list string) : graph_t :=
  fold_left (λ graph ref,
    if Dict.mem assemblies ref then graph_append graph name ref else graph)
    refs graph.

(** Second pass: the loop over [assemblies.items()]. *)
Definition link_assemblies (assemblies : Dict.t asmdef) : graph_t :=
  fold_left (λ graph item, add_references assemblies graph item.1 (references item.2))
    assemblies [].

Definition build_dependency_graph (json_load : string → string + json_data)
    (asmdef_files : list string) : graph_t * Dict.t asmdef * list line :=
  let '(assemblies, out) := collect_assemblies json_load asmdef_files in
  (link_assemblies assemblies, assemblies, out).

(** ** Cycle detector *)

(** The two marker sets that [dfs] mutates. *)
Record marks : Type := Marks {
  visited : gset string;
  rec_stack : gset string
}.

Definition dfs_result : Type := result (option (list string) * marks).

(** The loop of [dfs] over the neighbours of [node]; [rec] is the
    recursive call.  After the loop comes [rec_stack.remove(node)], which
    raises [KeyError] when [node] is not in the set. *)
Fixpoint dfs_neighbors (rec : string → list string → marks → dfs_result)
    (node : string) (path : list string) (neighbors : list string) (m : marks)
    : dfs_result :=
  match neighbors with
  | [] =>
      if decide (node ∈ rec_stack m)
      then Ok (None, Marks (visited m) (rec_stack m ∖ {[node]}))
      else Raise KeyError
  | neighbor :: rest =>
      if decide (neighbor ∉ visited m) then
        match rec neighbor (path ++ [neighbor]) m with
        | Ok (cycle, m') =>
            if truthy cycle then Ok (cycle, m')
            else dfs_neighbors rec node path rest m'
        | err => err
        end
      else if decide (neighbor ∈ rec_stack m) then
        match index path neighbor with
        | Some cycle_start => Ok (Some (drop cycle_start path ++ [neighbor]), m)
        | None => Raise ValueError
        end
      else dfs_neighbors rec node path rest m
  end.

(** [dfs]; [frames] is the number of nested calls of [dfs] that the
    interpreter still allows, this one included: with none left, the call
    raises [RecursionError]. *)
Fixpoint dfs (frames : nat) (graph : graph_t) (node : string) (path : list string)
    (m : marks) : dfs_result :=
  match frames with
  | 0 => Raise RecursionError
  | S frames' =>
      dfs_neighbors (dfs frames' graph) node path (graph_get graph node)
        (Marks (visited m ∪ {[node]}) (rec_stack m ∪ {[node]}))
  end.

(** The outer loop [for node in graph] of [detect_circular_dependencies],
    over the nodes that remain; [seen] is the set [visited], shared by all
    searches, and the recursion stack is a fresh set for each. *)
Fixpoint detect_from (recursion_limit : nat) (graph : graph_t) (nodes : list string)
    (seen : gset string) : result (option (list string) * gset string) :=
  match nodes with
  | [] => Ok (None, seen)
  | node :: rest =>
      if decide (node ∉ seen) then
        match dfs recursion_limit graph node [node] (Marks seen ∅) with
        | Ok (cycle, m') =>
            if truthy cycle then Ok (cycle, visited m')
            else detect_from recursion_limit graph rest (visited m')
        | Raise e => Raise e
        end
      else detect_from recursion_limit graph rest seen
  end.

(** The names listed as dependencies under the keys of the graph. *)
Definition graph_targets (graph : graph_t) : list string :=
  Dict.keys graph ≫= graph_get graph.

(** Every name that occurs in the graph, as a key or as a target. *)
Definition graph_nodes (graph : graph_t) : gset string :=
  list_to_set (Dict.keys graph) ∪ list_to_set (graph_targets graph).

(** The detector together with the final [visited] set. *)
Definition detect_run (recursion_limit : nat) (graph : graph_t)
    : result (option (list string) * gset string) :=
  detect_from recursion_limit graph (Dict.keys graph) ∅.

Definition detect_circular_dependencies (recursion_limit : nat) (graph : graph_t)
    : result (option (list string)) :=
  match detect_run recursion_limit graph with
  | Ok (cycle, _) => Ok cycle
  | Raise e => Raise e
  end.

(** ** Isolation policy checker *)

Definition is_shared (name : string) : bool := contains "Shared" name.

Definition is_feature (name : string) : bool :=
  negb (contains "Shared" name || contains "Unity." name).

Definition shared_assemblies (assemblies : Dict.t asmdef) : list string :=
  filter (λ name, is_shared name = true) (Dict.keys assemblies).

Definition feature_assemblies (assemblies : Dict.t asmdef) : list string :=
  filter (λ name, is_feature name = true) (Dict.keys assemblies).

(** The two nested loops of [validate_shared_namespace_isolation], with
    the pair of names each violation is about. *)
Definition isolation_violations (graph : graph_t) (assemblies : Dict.t asmdef)
    : list (string * string) :=
  shared ← shared_assemblies assemblies;
  ref ← graph_get graph shared;
  if bool_decide (ref ∈ feature_assemblies assemblies) then [(shared, ref)] else [].

(** The text appended for a violation. *)
Definition violation_message (v : string * string) : string :=
  "❌ Shared assembly '" ++ v.1 ++ "' imports from feature assembly '" ++ v.2 ++ "'".

Definition validate_shared_namespace_isolation (graph : graph_t)
    (assemblies : Dict.t asmdef) : list string :=
  violation_message <$> isolation_violations graph assemblies.

(** ** Driver *)

Section Driver.

Variable recursion_limit : nat.
Variable getcwd : string.
Variable find_asmdef_files : string → list string.
Variable json_load : string → string + json_data.

(** [main]: the lines printed, and the value returned or the exception
    that ends the run. *)
Definition main : list line * result Z :=
  let root_path := getcwd in
  let out := [Analyzing root_path] in
  let asmdef_files := find_asmdef_files root_path in
  let out := out ++ [FoundFiles (length asmdef_files)] in
  let '(graph, assemblies, warnings) := build_dependency_graph json_load asmdef_files in
  let out := out ++ warnings in
  let out := out ++ [Discovered (length assemblies)] in
  let out := out ++ ((λ name, AssemblyLine name (length (graph_get graph name)))
                       <$> sorted (Dict.keys assemblies)) in
  let out := out ++ [CheckingCycles] in
  match detect_circular_dependencies recursion_limit graph with
  | Raise e => (out, Raise e)
  | Ok cycle =>
      if truthy cycle then
        (out ++ [CycleDetected; CyclePath (default [] cycle)], Ok 1%Z)
      else
        let out := out ++ [NoCycles] in
        let out := out ++ [ValidatingIsolation] in
        let violations := validate_shared_namespace_isolation graph assemblies in
        match violations with
        | _ :: _ =>
            (out ++ [ViolationsHeader] ++ (ViolationLine <$> violations), Ok 1%Z)
        | [] =>
            let out := out ++ [Isolated] in
            (out ++ [AllPassed], Ok 0%Z)
        end
  end.

End Driver.

(** The exit status of the process under [sys.exit(main())]: the value
    returned, or 1 when an uncaught exception ends the interpreter. *)
Definition exit_status (outcome : result Z) : Z :=
  match outcome with
  | Ok code => code
  | Raise _ => 1%Z
  end.

(** The recursion limit of CPython as the script runs it
    ([sys.getrecursionlimit()], which the script never changes); the
    frames already in use when [dfs] starts leave it a few calls less. *)
Definition default_recursion_limit : nat := 1000.

(** ** Vocabulary of the properties *)

(** [t] is listed among the dependencies of [s]. *)
Definition edge (graph : graph_t) (s t : string) : Prop := t ∈ graph_get graph s.

(** Consecutive entries of [l] are connected by an edge. *)
Definition path_in_graph (graph : graph_t) (l : list string) : Prop :=
  ∀ i a b, l !! i = Some a → l !! S i = Some b → edge graph a b.

(** A cycle as the detector reports it: a path that closes on its first
    entry. *)
Definition is_cycle (graph : graph_t) (c : list string) : Prop :=
  2 ≤ length c ∧ head c = last c ∧ path_in_graph graph c.

Definition acyclic (graph : graph_t) : Prop := ∀ c, ¬ is_cycle graph c.

(** A simple cycle, listed once around: distinct nodes, each with an edge
    to the next and the last with an edge to the first. *)
Definition simple_cycle (graph : graph_t) (c : list string) : Prop :=
  c ≠ [] ∧ NoDup c ∧ path_in_graph graph (c ++ take 1 c).

(** The edge entries of a graph, one per element of an adjacency list. *)
Definition graph_edges (graph : graph_t) : list (string * string) :=
  item ← graph; pair item.1 <$> item.2.

(** An edge from a shared module to a feature module. *)
Definition shared_to_feature (e : string * string) : Prop :=
  is_shared e.1 = true ∧ is_feature e.2 = true.

#[global] Instance shared_to_feature_dec e : Decision (shared_to_feature e).
Proof. unfold shared_to_feature. apply _. Defined.

(** What the detector reports: a simple cycle followed by its first
    entry again. *)
Definition reported (graph : graph_t) (p : list string) : Prop :=
  ∃ c, simple_cycle graph c ∧ p = c ++ take 1 c.

(** A set of names is settled when it is closed under edges and none of
    its members lies on a cycle: the state of the nodes that [dfs] has
    left. *)
Definition settled (graph : graph_t) (B : gset string) : Prop :=
  ∀ u, u ∈ B → (∀ v, edge graph u v → v ∈ B) ∧ ¬ tc (edge graph) u u.

(** A simple path: distinct nodes of the graph, each with an edge to the
    next. *)
Definition simple_path (graph : graph_t) (q : list string) : Prop :=
  NoDup q ∧ path_in_graph graph q ∧ ∀ x, x ∈ q → x ∈ graph_nodes graph.

(** No simple path of the graph has more nodes than the recursion limit
    lets [dfs] nest calls. *)
Definition depth_bounded (graph : graph_t) (recursion_limit : nat) : Prop :=
  ∀ q, simple_path graph q → length q ≤ recursion_limit.

(** What a call of [dfs] with [f] frames left does, from a state in which
    the stack holds the nodes of [p] and [node] is unvisited.  When it
    returns, it does so with a reported cycle, or with "no cycle", the
    stack as it was and the visited nodes off the stack settled.  When it
    raises, the exception is [RecursionError] and the graph has a simple
    path of one node more than the calls that were allowed since the
    search began. *)
Definition dfs_ok (graph : graph_t) (f : nat) : Prop :=
  ∀ (node : string) (p : list string) (V : gset string),
    node ∉ V → list_to_set p ⊆ V → NoDup p →
    path_in_graph graph (p ++ [node]) →
    settled graph (V ∖ list_to_set p) →
    node ∈ graph_nodes graph →
    match dfs f graph node (p ++ [node]) (Marks V (list_to_set p)) with
    | Ok (r, m') =>
        V ∪ {[node]} ⊆ visited m' ∧
        match r with
        | None => rec_stack m' = list_to_set p ∧
                  settled graph (visited m' ∖ list_to_set p)
        | Some c => reported graph c
        end
    | Raise e =>
        e = RecursionError ∧
        ∃ q, simple_path graph q ∧ length q = length p + S f
    end.

(** The references of a manifest that name known assemblies. *)
Definition known_references (assemblies : Dict.t asmdef) (refs : list string)
    : list string :=
  filter (λ ref, Dict.mem assemblies ref = true) refs.

(** The graph of [link_assemblies] in closed form: one binding for each
    assembly with a known reference, in the order of the assemblies. *)
Definition linked (assemblies : Dict.t asmdef) (items : Dict.t asmdef) : graph_t :=
  item ← items;
  match known_references assemblies (references item.2) with
  | [] => []
  | refs => [(item.1, refs)]
  end.

(** The module set and the graph that [build_dependency_graph] returns,
    and the warnings it prints. *)
Definition built_assemblies (json_load : string → string + json_data)
    (asmdef_files : list string) : Dict.t asmdef :=
  (collect_assemblies json_load asmdef_files).1.

Definition built_graph (json_load : string → string + json_data)
    (asmdef_files : list string) : graph_t :=
  link_assemblies (built_assemblies json_load asmdef_files).

Definition build_warnings (json_load : string → string + json_data)
    (asmdef_files : list string) : list line :=
  (collect_assemblies json_load asmdef_files).2.

(** What [main] prints before the cycle detector runs. *)
Definition preamble (getcwd : string) (find_asmdef_files : string → list string)
    (json_load : string → string + json_data) : list line :=
  let files := find_asmdef_files getcwd in
  let graph := built_graph json_load files in
  let assemblies := built_assemblies json_load files in
  [Analyzing getcwd; FoundFiles (length files)]
    ++ build_warnings json_load files
    ++ [Discovered (length assemblies)]
    ++ ((λ name, AssemblyLine name (length (graph_get graph name)))
          <$> sorted (Dict.keys assemblies))
    ++ [CheckingCycles].

(** The detector of the specification's wording, which starts its
    searches in ascending order of the names: the detector run over the
    sorted keys. *)
Definition detect_in_sorted_order (recursion_limit : nat) (graph : graph_t)
    : result (option (list string)) :=
  match detect_from recursion_limit graph (sorted (Dict.keys graph)) ∅ with
  | Ok (cycle, _) => Ok cycle
  | Raise e => Raise e
  end.

(** The number of distinct shared-to-feature edges of a graph. *)
Definition distinct_shared_to_feature (graph : graph_t) : nat :=
  length (remove_dups (filter shared_to_feature (graph_edges graph))).

(** ** Sample projects *)

(** A well-formed manifest file. *)
Definition manifest (n : string) (refs : list string) : string + json_data :=
  inr (JsonData (Some n) (Some refs)).

(** A directory given by its files: [listing] is what
    [find_asmdef_files] returns for it and [disk] what loading a file
    yields. *)
Definition listing (project : Dict.t (string + json_data)) (root_path : string)
    : list string :=
  Dict.keys project.

Definition disk (project : Dict.t (string + json_data)) (file_path : string)
    : string + json_data :=
  default (inl "No such file or directory") (Dict.get project file_path).

(** [A -> B -> C], no cycle. *)
Definition graph_chain : graph_t := [("A", ["B"]); ("B", ["C"])].

(** [A -> B -> C -> A]. *)
Definition graph_triangle : graph_t := [("A", ["B"]); ("B", ["C"]); ("C", ["A"])].

(** A self-referencing module next to a shared module that imports a
    feature module. *)
Definition project_cycle_and_violation : Dict.t (string + json_data) :=
  [("A.asmdef", manifest "A" ["A"]);
   ("SharedCore.asmdef", manifest "SharedCore" ["FeatureLogin"]);
   ("FeatureLogin.asmdef", manifest "FeatureLogin" [])].

(** A shared module that imports a feature module. *)
Definition project_violation : Dict.t (string + json_data) :=
  [("SharedCore.asmdef", manifest "SharedCore" ["FeatureLogin"]);
   ("FeatureLogin.asmdef", manifest "FeatureLogin" [])].

(** A shared module that lists the same feature module twice. *)
Definition project_repeated_reference : Dict.t (string + json_data) :=
  [("SharedCore.asmdef", manifest "SharedCore" ["FeatureLogin"; "FeatureLogin"]);
   ("FeatureLogin.asmdef", manifest "FeatureLogin" [])].

(** Two self-referencing modules, found in the order [B], [A]. *)
Definition project_unsorted : Dict.t (string + json_data) :=
  [("B.asmdef", manifest "B" ["B"]); ("A.asmdef", manifest "A" ["A"])].

(** A module that references another one and itself. *)
Definition project_self_and_loop : Dict.t (string + json_data) :=
  [("A.asmdef", manifest "A" ["B"; "A"]); ("B.asmdef", manifest "B" ["A"])].

(** A single module that references itself. *)
Definition project_self : Dict.t (string + json_data) :=
  [("A.asmdef", manifest "A" ["A"; "X"])].







(** Two manifests that declare the module [Core], and one other. *)
Definition project_duplicate_name : Dict.t (string + json_data) :=
  [("old/Core.asmdef", manifest "Core" ["Util"]);
   ("Util.asmdef", manifest "Util" []);
   ("new/Core.asmdef", manifest "Core" [])].

(** ** File discovery *)

(** [s.endswith(suffix)]: some tail of [s] is [suffix]. *)
Fixpoint endswith (s suffix : string) : bool :=
  String.eqb s suffix ||
  match s with
  | EmptyString => false
  | String _ s' => endswith s' suffix
  end.

(** [os.path.join(a, b)] for two components, on a POSIX system. *)
Definition path_join (a b : string) : string :=
  if String.prefix "/" b then b
  else if String.eqb a "" || endswith a "/" then a ++ b
  else a ++ "/" ++ b.

(** [find_asmdef_files]; [os_walk] gives the triples
    [(root, dirs, files)] that [os.walk] yields for a directory. *)
Definition find_asmdef_files
    (os_walk : string → list (string * list string * list string))
    (root_path : string) : list string :=
  entry ← os_walk root_path;
  file ← entry.2;
  if endswith file ".asmdef" then [path_join entry.1.1 file] else [].

(** ** Further vocabulary *)

(** A manifest that [parse_asmdef] can read. *)
Definition readable (json_load : string → string + json_data) (file_path : string)
    : Prop :=
  is_Some (parse_asmdef json_load file_path).1.

#[global] Instance readable_dec json_load file_path :
  Decision (readable json_load file_path).
Proof. unfold readable. apply _. Defined.

(** The names declared by the readable manifests, in processing order. *)
Definition declared_names (json_load : string → string + json_data)
    (files : list string) : list string :=
  omap (λ f, name <$> (parse_asmdef json_load f).1) files.

(** A list without its repetitions, each element at its first position. *)
Definition first_occurrences (l : list string) : list string :=
  reverse (remove_dups (reverse l)).

(** Two manifest files agree on what the validator tracks: both are
    unreadable with the same message, or they declare the same name and
    the same references to modules of the set [assemblies]. *)
Definition agree_on_known (assemblies : Dict.t asmdef) (x y : string + json_data)
    : Prop :=
  match x, y with
  | inl e, inl e' => e = e'
  | inr d, inr d' =>
      default "" (data_name d) = default "" (data_name d') ∧
      known_references assemblies (default [] (data_references d)) =
        known_references assemblies (default [] (data_references d'))
  | _, _ => False
  end.

(** Two module records that agree likewise. *)
Definition record_agrees (assemblies : Dict.t asmdef) (x y : string * asmdef)
    : Prop :=
  x.1 = y.1 ∧ path x.2 = path y.2 ∧
  known_references assemblies (references x.2) =
    known_references assemblies (references y.2).

(** A project whose module [A] also references the unknown names
    [Newtonsoft.Json] and [X], and the same project without them. *)
Definition project_with_external : Dict.t (string + json_data) :=
  [("A.asmdef", manifest "A" ["Newtonsoft.Json"; "B"; "X"]);
   ("B.asmdef", manifest "B" ["A"])].

Definition project_without_external : Dict.t (string + json_data) :=
  [("A.asmdef", manifest "A" ["B"]); ("B.asmdef", manifest "B" ["A"])].

(** The assembly lines of a printed report. *)
Definition assembly_lines (out : list line) : list (string * nat) :=
  omap (λ l, match l with AssemblyLine n deps => Some (n, deps) | _ => None end) out.

(** A directory tree as [os.walk] reports it: the project root with two
    manifests, a source file, and a subdirectory whose name ends in
    [.asmdef]. *)
Definition sample_walk (root_path : string)
    : list (string * list string * list string) :=
  [(root_path, ["Core"; "Docs.asmdef"], ["Game.asmdef"; "README.md"]);
   (path_join root_path "Core", [], ["Core.asmdef"; "Core.cs"; "notes.ASMDEF"]);
   (path_join root_path "Docs.asmdef", [], ["index.md"])].

(** ** Checks of the runtime helpers *)

Example contains_infix : contains "Shared" "MetVanDAMN.Shared.Core" = true.
Proof. reflexivity. Qed.

Example contains_case_sensitive : contains "Shared" "shared" = false.
Proof. reflexivity. Qed.

Example contains_empty : contains "" "" = true.
Proof. reflexivity. Qed.

Example sorted_names : sorted ["b"; "B"; "a"; "A.b"; "A"] = ["A"; "A.b"; "B"; "a"; "b"].
Proof. vm_compute. reflexivity. Qed.

(** ** Dictionaries *)

Module DictFacts.
Import Dict.

Section Facts.
Context {V : Type}.
Implicit Types (d : t V) (k : string) (v : V).

Lemma get_Some_elem d k v : get d k = Some v → (k, v) ∈ d.
Proof.
  induction d as [|[k' v'] d IH]; simpl; [done|].
  case_decide; intros ?; simplify_eq; [left | right; auto].
Qed.

Lemma get_is_Some d k : is_Some (get d k) ↔ k ∈ keys d.
Proof.
  unfold keys. induction d as [|[k' v'] d IH]; simpl.
  - split; [intros [? ?]; done | intros ?%elem_of_nil; done].
  - case_decide; subst.
    + split; [left | eauto].
    + rewrite IH. set_solver.
Qed.

Lemma get_None d k : get d k = None ↔ k ∉ keys d.
Proof. rewrite <- get_is_Some, eq_None_not_Some. done. Qed.

Lemma mem_true d k : mem d k = true ↔ k ∈ keys d.
Proof. unfold mem. rewrite bool_decide_eq_true. apply get_is_Some. Qed.

Lemma elem_get d k v : NoDup (keys d) → (k, v) ∈ d → get d k = Some v.
Proof.
  unfold keys. induction d as [|[k' v'] d IH]; simpl.
  - intros _ ?%elem_of_nil. done.
  - intros [Hk Hd]%NoDup_cons [Heq | Hin]%elem_of_cons.
    + simplify_eq. by rewrite decide_True.
    + rewrite decide_False; [auto|].
      intros ->. apply Hk. apply list_elem_of_fmap. by exists (k, v).
Qed.

Lemma get_set_eq d k v : get (set d k v) k = Some v.
Proof.
  induction d as [|[k' v'] d IH]; simpl.
  - by rewrite decide_True.
  - case_decide; simpl; [by rewrite decide_True | by rewrite decide_False].
Qed.

Lemma get_set_ne d k k' v : k ≠ k' → get (set d k v) k' = get d k'.
Proof.
  intros Hne. induction d as [|[k0 v0] d IH]; simpl.
  - by rewrite decide_False.
  - case_decide; simpl; subst.
    + by rewrite !decide_False.
    + case_decide; auto.
Qed.

Lemma keys_set_in d k v : k ∈ keys d → keys (set d k v) = keys d.
Proof.
  unfold keys. induction d as [|[k' v'] d IH]; simpl.
  - intros ?%elem_of_nil. done.
  - case_decide; subst; simpl; [done|].
    intros [?|?]%elem_of_cons; [done|]. f_equal. auto.
Qed.

Lemma set_notin d k v : k ∉ keys d → set d k v = d ++ [(k, v)].
Proof.
  unfold keys. induction d as [|[k' v'] d IH]; simpl; [done|].
  intros Hk. rewrite decide_False by set_solver. f_equal. apply IH. set_solver.
Qed.

Lemma keys_set d k v : keys (set d k v) ≡ₚ if mem d k then keys d else k :: keys d.
Proof.
  destruct (mem d k) eqn:Hm.
  - apply mem_true in Hm. by rewrite keys_set_in.
  - assert (k ∉ keys d) by (rewrite <- mem_true; congruence).
    rewrite set_notin by done. unfold keys. rewrite fmap_app. simpl.
    by rewrite <- Permutation_cons_append.
Qed.

Lemma NoDup_keys_set d k v : NoDup (keys d) → NoDup (keys (set d k v)).
Proof.
  intros Hd. rewrite keys_set. destruct (mem d k) eqn:Hm; [done|].
  apply NoDup_cons. split; [|done]. rewrite <- mem_true. congruence.
Qed.

Lemma elem_keys_set d k v k' : k' ∈ keys (set d k v) ↔ k' = k ∨ k' ∈ keys d.
Proof.
  rewrite keys_set. destruct (mem d k) eqn:Hm.
  - apply mem_true in Hm. naive_solver.
  - set_solver.
Qed.

Lemma get_app_notin d d' k : k ∉ keys d → get (d ++ d') k = get d' k.
Proof.
  unfold keys. induction d as [|[k' v'] d IH]; simpl; [done|].
  intros Hk. rewrite decide_False by set_solver. apply IH. set_solver.
Qed.

Lemma get_app_in d d' k : k ∈ keys d → get (d ++ d') k = get d k.
Proof.
  unfold keys. induction d as [|[k' v'] d IH]; simpl.
  - by intros ?%elem_of_nil.
  - case_decide; [done|]. intros [?|?]%elem_of_cons; [done | auto].
Qed.

Lemma set_app_notin d d' k v : k ∉ keys d → set (d ++ d') k v = d ++ set d' k v.
Proof.
  unfold keys. induction d as [|[k' v'] d IH]; simpl; [done|].
  intros Hk. rewrite decide_False by set_solver. f_equal. apply IH. set_solver.
Qed.

End Facts.
End DictFacts.

(** ** Paths and cycles *)

Section Paths.
Variable graph : graph_t.
Implicit Types (l p c : list string) (a b x : string).

Lemma edge_source_key a b : edge graph a b → a ∈ Dict.keys graph.
Proof.
  unfold edge, graph_get, Dict.get_default. intros Hin.
  apply DictFacts.get_is_Some. destruct (Dict.get graph a); [eauto|].
  by apply elem_of_nil in Hin.
Qed.

Lemma edge_target a b : edge graph a b → b ∈ graph_targets graph.
Proof.
  intros Hab. unfold graph_targets. apply list_elem_of_bind.
  exists a. split; [done | by eapply edge_source_key].
Qed.

Lemma path_nil : path_in_graph graph [].
Proof. intros i a b Hi. by rewrite lookup_nil in Hi. Qed.

Lemma path_singleton a : path_in_graph graph [a].
Proof. intros i x y _ Hi. by destruct i. Qed.

Lemma path_cons a b l :
  path_in_graph graph (a :: b :: l) ↔ edge graph a b ∧ path_in_graph graph (b :: l).
Proof.
  split.
  - intros Hp. split; [by apply (Hp 0) |].
    intros i x y Hx Hy. by apply (Hp (S i)).
  - intros [Hab Hp] [|i] x y Hx Hy; simpl in *; simplify_eq; [done|].
    by apply (Hp i).
Qed.

Lemma path_cons_inv a l : path_in_graph graph (a :: l) → path_in_graph graph l.
Proof. destruct l; [intros; apply path_nil | by intros [_ ?]%path_cons]. Qed.

Lemma path_drop n l : path_in_graph graph l → path_in_graph graph (drop n l).
Proof.
  revert l. induction n as [|n IH]; intros [|a l]; simpl; auto.
  intros Hp. apply IH. by eapply path_cons_inv.
Qed.

Lemma path_snoc l a b :
  path_in_graph graph (l ++ [a]) → edge graph a b →
  path_in_graph graph ((l ++ [a]) ++ [b]).
Proof.
  induction l as [|x l IH]; simpl; intros Hp Hab.
  - apply path_cons. split; [done | apply path_singleton].
  - destruct l as [|y l]; simpl in *.
    + apply path_cons in Hp as [Hxa _]. apply path_cons. split; [done|].
      apply path_cons. split; [done | apply path_singleton].
    + apply path_cons in Hp as [Hxy Hp]. apply path_cons. split; [done | auto].
Qed.

Lemma path_tc a l b : path_in_graph graph (a :: l ++ [b]) → tc (edge graph) a b.
Proof.
  revert a. induction l as [|x l IH]; simpl; intros a Hp.
  - apply path_cons in Hp as [? _]. by apply tc_once.
  - apply path_cons in Hp as [? Hp]. eapply tc_l; eauto.
Qed.

Lemma is_cycle_tc c : is_cycle graph c → ∃ u, head c = Some u ∧ tc (edge graph) u u.
Proof.
  intros (Hlen & Hhl & Hp). destruct c as [|u c]; simpl in *; [lia|].
  destruct (decide (c = [])) as [-> | Hne]; simpl in *; [lia|].
  destruct (exists_last Hne) as (c' & b & ->).
  rewrite app_comm_cons, last_snoc in Hhl. simplify_eq.
  exists b. split; [done | by eapply path_tc].
Qed.

Lemma tc_is_cycle u : tc (edge graph) u u → ∃ c, is_cycle graph c.
Proof.
  assert (Hgen : ∀ a b, tc (edge graph) a b →
            ∃ l, path_in_graph graph (a :: l ++ [b])).
  { intros a b Htc. induction Htc as [a b Hab | a x b Hax _ [l Hl]].
    - exists []. simpl. apply path_cons. split; [done | apply path_singleton].
    - exists (x :: l). simpl. apply path_cons. by split. }
  intros [l Hl]%Hgen. exists (u :: l ++ [u]). split_and!.
  - rewrite length_cons, length_app. simpl. lia.
  - by rewrite app_comm_cons, last_snoc.
  - done.
Qed.

Lemma simple_cycle_closed c :
  simple_cycle graph c → is_cycle graph (c ++ take 1 c).
Proof.
  intros (Hne & _ & Hp). destruct c as [|x c]; [done|].
  change (take 1 (x :: c)) with [x] in *.
  split_and!; [| |done].
  - rewrite length_app. simpl. lia.
  - by rewrite last_snoc.
Qed.

(** *** Settled sets *)

Lemma settled_empty : settled graph ∅.
Proof. intros u Hu. set_solver. Qed.

Lemma settled_reach B u v : settled graph B → u ∈ B → tc (edge graph) u v → v ∈ B.
Proof.
  intros HB Hu Htc. induction Htc as [a b Hab | a x b Hax _ IH].
  - by apply (HB a).
  - apply IH. by apply (HB a).
Qed.

Lemma settled_add B n :
  settled graph B → n ∉ B → (∀ v, edge graph n v → v ∈ B) →
  settled graph (B ∪ {[n]}).
Proof.
  intros HB Hn Hsucc u [Hu | ->%elem_of_singleton]%elem_of_union.
  - split; [|by apply HB]. intros v Huv. apply elem_of_union_l. by apply (HB u).
  - split; [intros v Hv; apply elem_of_union_l; auto|].
    intros Hcyc. inversion Hcyc as [? ? Hnn | ? x ? Hnx Hxn]; subst.
    + by apply Hn, Hsucc.
    + apply Hn. eapply settled_reach; eauto.
Qed.

Lemma settled_acyclic B :
  settled graph B → list_to_set (Dict.keys graph) ⊆ B → acyclic graph.
Proof.
  intros HB Hkeys c (u & Hu & Htc)%is_cycle_tc.
  assert (u ∈ B) as HuB.
  { apply Hkeys, elem_of_list_to_set.
    inversion Htc; subst; by eapply edge_source_key. }
  by apply (HB u).
Qed.

End Paths.

(** ** The depth-first search *)

Lemma index_lookup l x i : index l x = Some i → l !! i = Some x.
Proof.
  revert i. induction l as [|y l IH]; intros i; simpl; [done|].
  case_decide; subst.
  - by intros [= <-].
  - destruct (index l x) as [j|]; simpl; [|done]. intros [= <-]. simpl. auto.
Qed.

Lemma index_elem l x : x ∈ l → is_Some (index l x).
Proof.
  induction l as [|y l IH]; simpl; [by intros ?%elem_of_nil|].
  case_decide; [eauto|]. intros [?|Hin]%elem_of_cons; [done|].
  destruct (IH Hin) as [j ->]. simpl. eauto.
Qed.

Lemma truthy_reported graph c : reported graph c → truthy (Some c) = true.
Proof. intros ([|x c'] & (Hne & _) & ->); [done | reflexivity]. Qed.

Lemma key_node (graph : graph_t) n : n ∈ Dict.keys graph → n ∈ graph_nodes graph.
Proof. intros ?. apply elem_of_union_l. by apply elem_of_list_to_set. Qed.

Lemma path_nodes (graph : graph_t) l x :
  path_in_graph graph l → 2 ≤ length l → x ∈ l → x ∈ graph_nodes graph.
Proof.
  intros Hp Hlen [i Hi]%list_elem_of_lookup.
  destruct (l !! S i) as [y|] eqn:Hnext.
  - apply key_node. eapply edge_source_key. by eapply Hp.
  - apply lookup_ge_None in Hnext. apply lookup_lt_Some in Hi as Hlt.
    destruct i as [|j]; [lia|].
    destruct (lookup_lt_is_Some_2 l j) as [w Hw]; [lia|].
    apply elem_of_union_r, elem_of_list_to_set.
    eapply edge_target. by eapply Hp.
Qed.

(** The path of a search is a simple path of the graph. *)
Lemma search_path_simple (graph : graph_t) p node :
  NoDup (p ++ [node]) → path_in_graph graph (p ++ [node]) →
  node ∈ graph_nodes graph → simple_path graph (p ++ [node]).
Proof.
  intros Hnd Hpath Hnode. split_and!; [done..|]. intros x Hx.
  destruct p as [|y p]; [by apply list_elem_of_singleton in Hx as ->|].
  apply (path_nodes graph ((y :: p) ++ [node])); [done | | done].
  rewrite length_app. simpl. lia.
Qed.

(** Few enough nodes bound the depth. *)
Lemma few_nodes_depth_bounded (graph : graph_t) recursion_limit :
  size (graph_nodes graph) ≤ recursion_limit → depth_bounded graph recursion_limit.
Proof.
  intros Hsize q (Hnd & _ & Hnodes). etrans; [|exact Hsize].
  rewrite <- (size_list_to_set (C := gset string) q) by done.
  apply subseteq_size. intros x Hx. apply Hnodes. by apply elem_of_list_to_set in Hx.
Qed.

Section DepthFirst.
Variable graph : graph_t.
Implicit Types (p : list string) (V : gset string).

(** The cycle built when an edge reaches a node on the stack. *)
Lemma back_edge_reported p node neighbor i :
  NoDup (p ++ [node]) → path_in_graph graph (p ++ [node]) →
  edge graph node neighbor → index (p ++ [node]) neighbor = Some i →
  reported graph (drop i (p ++ [node]) ++ [neighbor]).
Proof.
  intros Hnd Hp Hedge Hi%index_lookup.
  assert (i ≤ length p) as Hle.
  { apply lookup_lt_Some in Hi. rewrite length_app in Hi. simpl in Hi. lia. }
  exists (drop i (p ++ [node])).
  pose proof (drop_S _ _ _ Hi) as Hdrop. rewrite Hdrop.
  split; [|done]. split_and!; [done | |].
  - rewrite <- Hdrop. rewrite <- (take_drop i (p ++ [node])) in Hnd.
    by apply NoDup_app in Hnd as (_ & _ & ?).
  - change (take 1 (neighbor :: drop (S i) (p ++ [node]))) with [neighbor].
    rewrite <- Hdrop. rewrite drop_app_le by done.
    apply path_snoc; [|done]. rewrite <- drop_app_le by done. by apply path_drop.
Qed.

Lemma dfs_neighbors_ok f node p neighbors V :
  dfs_ok graph f →
  list_to_set (p ++ [node]) ⊆ V → NoDup (p ++ [node]) →
  path_in_graph graph (p ++ [node]) →
  settled graph (V ∖ list_to_set (p ++ [node])) →
  (∀ v, v ∈ neighbors → edge graph node v) →
  (∀ v, edge graph node v → v ∈ neighbors ∨ v ∈ V ∖ list_to_set (p ++ [node])) →
  match dfs_neighbors (dfs f graph) node (p ++ [node]) neighbors
          (Marks V (list_to_set (p ++ [node]))) with
  | Ok (r, m') =>
      V ⊆ visited m' ∧
      match r with
      | None => rec_stack m' = list_to_set p ∧
                settled graph (visited m' ∖ list_to_set p)
      | Some c => reported graph c
      end
  | Raise e =>
      e = RecursionError ∧
      ∃ q, simple_path graph q ∧ length q = length p + S (S f)
  end.
Proof.
  intros IH. revert V.
  induction neighbors as [|nb rest IHl]; intros V Hstack Hnd Hpath Hset Hedges Hdone.
  - simpl. apply NoDup_app in Hnd as (Hndp & Hnotin & _).
    assert (node ∉ p) as Hnp by (intros ?; eapply Hnotin; [done | by left]).
    rewrite decide_True by set_solver. simpl. split; [done|].
    assert (list_to_set (p ++ [node]) ∖ {[node]} = (list_to_set p : gset string)) as ->
      by set_solver.
    split; [done|].
    assert (V ∖ list_to_set p = V ∖ list_to_set (p ++ [node]) ∪ {[node]}) as ->.
    { apply set_eq. intros x. destruct (decide (x = node)); set_solver. }
    apply settled_add; [done | set_solver |].
    intros v Hv. destruct (Hdone v Hv) as [?%elem_of_nil | ?]; done.
  - simpl. destruct (decide (nb ∉ V)) as [Hfresh | Hseen].
    + assert (edge graph node nb) as Hedge by (apply Hedges; left).
      pose proof (IH nb (p ++ [node]) V) as Hcall.
      destruct (dfs f graph nb ((p ++ [node]) ++ [nb])
                  (Marks V (list_to_set (p ++ [node])))) as [[r [V1 R1]] | e].
      * destruct Hcall as [Hsub Hpost]; [done.. | by apply path_snoc | done | |].
        { apply elem_of_union_r, elem_of_list_to_set. by eapply edge_target. }
        simpl in Hsub. destruct r as [c|].
        -- rewrite (truthy_reported _ _ Hpost). simpl. split; [set_solver | done].
        -- simpl in Hpost. destruct Hpost as [-> Hset1]. simpl.
           specialize (IHl V1).
           destruct (dfs_neighbors (dfs f graph) node (p ++ [node]) rest
                       (Marks V1 (list_to_set (p ++ [node])))) as [[r m'] | e].
           ++ destruct IHl as [Hsub' Hpost']; [set_solver | done.. | | |].
              { intros v Hv. apply Hedges. by right. }
              { intros v Hv. destruct (Hdone v Hv) as [[-> | ?]%elem_of_cons | ?].
                - right. set_solver.
                - by left.
                - right. set_solver. }
              split; [set_solver | done].
           ++ apply IHl; [set_solver | done.. | |].
              { intros v Hv. apply Hedges. by right. }
              { intros v Hv. destruct (Hdone v Hv) as [[-> | ?]%elem_of_cons | ?].
                - right. set_solver.
                - by left.
                - right. set_solver. }
      * destruct Hcall as [-> (q & Hq & Hlen)]; [done.. | by apply path_snoc | done | |].
        { apply elem_of_union_r, elem_of_list_to_set. by eapply edge_target. }
        split; [done|]. exists q. split; [done|].
        rewrite length_app in Hlen. simpl in Hlen. lia.
    + apply dec_stable in Hseen.
      destruct (decide (nb ∈ (list_to_set (p ++ [node]) : gset string))) as [Hon | Hoff].
      * assert (edge graph node nb) as Hedge by (apply Hedges; left).
        destruct (index_elem (p ++ [node]) nb) as [i Hi]; [set_solver|].
        rewrite Hi. simpl. split; [done|]. by apply back_edge_reported.
      * apply IHl; try done.
        { intros v Hv. apply Hedges. by right. }
        { intros v Hv. destruct (Hdone v Hv) as [[-> | ?]%elem_of_cons | ?].
          - right. set_solver.
          - by left.
          - by right. }
Qed.

Lemma dfs_correct f : dfs_ok graph f.
Proof.
  induction f as [|f IH]; intros node p V Hfresh Hstack Hnd Hpath Hset Hnode.
  - simpl. split; [done|]. exists (p ++ [node]). split.
    + apply search_path_simple; [|done..].
      apply NoDup_app. split_and!; [done | | apply NoDup_singleton].
      intros x Hx ->%list_elem_of_singleton. set_solver.
    + rewrite length_app. simpl. lia.
  - simpl.
    assert (list_to_set p ∪ {[node]} = (list_to_set (p ++ [node]) : gset string)) as ->
      by set_solver.
    assert (node ∉ p) as Hnp by set_solver.
    pose proof (dfs_neighbors_ok f node p (graph_get graph node) (V ∪ {[node]})) as Hloop.
    destruct (dfs_neighbors (dfs f graph) node (p ++ [node]) (graph_get graph node)
                (Marks (V ∪ {[node]}) (list_to_set (p ++ [node])))) as [[r m'] | e];
      (destruct Hloop as [Hsub Hpost];
       [ done
       | set_solver
       | apply NoDup_app; split_and!; [done | | apply NoDup_singleton];
         by intros x Hx ->%list_elem_of_singleton
       | done
       | assert ((V ∪ {[node]}) ∖ list_to_set (p ++ [node]) = V ∖ list_to_set p) as ->
           by set_solver; done
       | done
       | intros v Hv; by left
       | ]).
    + split; [set_solver | done].
    + done.
Qed.

End DepthFirst.

(** ** The detector *)

Section Detector.
Variable graph : graph_t.
Variable recursion_limit : nat.

(** One search started by the outer loop. *)
Lemma dfs_start node seen :
  settled graph seen → node ∈ Dict.keys graph → node ∉ seen →
  match dfs recursion_limit graph node [node] (Marks seen ∅) with
  | Ok (r, m') =>
      seen ∪ {[node]} ⊆ visited m' ∧
      match r with
      | None => settled graph (visited m')
      | Some c => reported graph c
      end
  | Raise e =>
      e = RecursionError ∧ ∃ q, simple_path graph q ∧ length q = S recursion_limit
  end.
Proof.
  intros Hset Hkey Hfresh.
  pose proof (dfs_correct graph recursion_limit node [] seen) as Hcall.
  simpl in Hcall.
  destruct (dfs recursion_limit graph node [node] (Marks seen ∅)) as [[r m'] | e];
    (destruct Hcall as [Hsub Hpost];
     [ done | set_solver | apply NoDup_nil_2 | exact (path_singleton graph node)
     | by rewrite difference_empty_L | by apply key_node | ]).
  - split; [done|]. destruct r; [done|]. destruct Hpost as [_ Hpost].
    by rewrite difference_empty_L in Hpost.
  - done.
Qed.

Lemma detect_from_ok nodes seen :
  settled graph seen → (∀ n, n ∈ nodes → n ∈ Dict.keys graph) →
  match detect_from recursion_limit graph nodes seen with
  | Ok (r, V) =>
      seen ⊆ V ∧
      match r with
      | None => settled graph V ∧ list_to_set nodes ⊆ V
      | Some c => reported graph c
      end
  | Raise e =>
      e = RecursionError ∧ ∃ q, simple_path graph q ∧ length q = S recursion_limit
  end.
Proof.
  revert seen. induction nodes as [|node rest IH]; intros seen Hset Hkeys; simpl.
  - split; [done|]. split; [done | set_solver].
  - destruct (decide (node ∉ seen)) as [Hfresh | Hseen].
    + pose proof (dfs_start node seen Hset) as Hcall.
      destruct (dfs recursion_limit graph node [node] (Marks seen ∅)) as [[r m'] | e].
      * destruct Hcall as [Hsub Hpost]; [apply Hkeys; left | done |].
        destruct r as [c|].
        -- rewrite (truthy_reported _ _ Hpost). split; [set_solver | done].
        -- simpl. specialize (IH (visited m') Hpost).
           destruct (detect_from recursion_limit graph rest (visited m')) as [[r V] | e].
           ++ destruct IH as [Hsub' Hpost']; [intros n Hn; apply Hkeys; by right|].
              split; [set_solver|]. destruct r; [done|].
              destruct Hpost'. split; [done | set_solver].
           ++ apply IH. intros n Hn. apply Hkeys. by right.
      * apply Hcall; [apply Hkeys; left | done].
    + apply dec_stable in Hseen. specialize (IH seen Hset).
      destruct (detect_from recursion_limit graph rest seen) as [[r V] | e].
      * destruct IH as [Hsub' Hpost']; [intros n Hn; apply Hkeys; by right|].
        split; [done|]. destruct r; [done|].
        destruct Hpost'. split; [done | set_solver].
      * apply IH. intros n Hn. apply Hkeys. by right.
Qed.

(** What a run of the detector comes to.  "No cycle" comes with every
    node visited and with acyclicity of the graph; a cycle is a simple
    cycle of the graph closed on its first entry; and the only exception
    is [RecursionError], raised only on a graph with a simple path of more
    nodes than the recursion limit. *)
Lemma detect_run_ok :
  match detect_run recursion_limit graph with
  | Ok (r, V) =>
      match r with
      | None => acyclic graph ∧ graph_nodes graph ⊆ V
      | Some c => reported graph c
      end
  | Raise e =>
      e = RecursionError ∧ ∃ q, simple_path graph q ∧ length q = S recursion_limit
  end.
Proof.
  pose proof (detect_from_ok (Dict.keys graph) ∅ (settled_empty graph)) as Hrun.
  unfold detect_run.
  destruct (detect_from recursion_limit graph (Dict.keys graph) ∅) as [[r V] | e];
    [|by apply Hrun].
  destruct Hrun as [_ Hpost]; [done|]. destruct r; [done|].
  destruct Hpost as [Hset Hkeys].
  split; [by eapply settled_acyclic|].
  intros n [Hn | Hn]%elem_of_union; [by apply Hkeys|].
  apply elem_of_list_to_set, list_elem_of_bind in Hn as (k & Hkn & Hk).
  apply (Hset k); [|done]. by apply Hkeys, elem_of_list_to_set.
Qed.

Lemma detect_Some c :
  detect_circular_dependencies recursion_limit graph = Ok (Some c) → reported graph c.
Proof.
  unfold detect_circular_dependencies. pose proof detect_run_ok as Hrun.
  destruct (detect_run recursion_limit graph) as [[r V] | e]; [|done].
  by intros [= ->].
Qed.

Lemma detect_None :
  detect_circular_dependencies recursion_limit graph = Ok None → acyclic graph.
Proof.
  unfold detect_circular_dependencies. pose proof detect_run_ok as Hrun.
  destruct (detect_run recursion_limit graph) as [[r V] | e]; [|done].
  intros [= ->]. by destruct Hrun.
Qed.

Lemma detect_Raise e :
  detect_circular_dependencies recursion_limit graph = Raise e →
  e = RecursionError ∧ ∃ q, simple_path graph q ∧ length q = S recursion_limit.
Proof.
  unfold detect_circular_dependencies. pose proof detect_run_ok as Hrun.
  destruct (detect_run recursion_limit graph) as [[r V] | e']; [done|].
  by intros [= ->].
Qed.

(** Within the recursion limit the detector returns. *)
Lemma detect_total :
  depth_bounded graph recursion_limit →
  ∃ r, detect_circular_dependencies recursion_limit graph = Ok r.
Proof.
  intros Hbound.
  destruct (detect_circular_dependencies recursion_limit graph) as [r | e] eqn:Hrun;
    [eauto|].
  apply detect_Raise in Hrun as [_ (q & Hq & Hlen)].
  apply Hbound in Hq. lia.
Qed.

Lemma reported_is_cycle c : reported graph c → is_cycle graph c.
Proof. intros (c' & Hc' & ->). by apply simple_cycle_closed. Qed.

Lemma detect_acyclic :
  depth_bounded graph recursion_limit → acyclic graph →
  detect_circular_dependencies recursion_limit graph = Ok None.
Proof.
  intros Hbound Hacyc. destruct (detect_total Hbound) as [[c|] Hr]; [|done].
  destruct (Hacyc c). by apply reported_is_cycle, detect_Some.
Qed.

Lemma detect_cyclic c0 :
  depth_bounded graph recursion_limit → is_cycle graph c0 →
  ∃ c, detect_circular_dependencies recursion_limit graph = Ok (Some c).
Proof.
  intros Hbound Hc0. destruct (detect_total Hbound) as [[c|] Hr]; [eauto|].
  by destruct (detect_None Hr c0).
Qed.

(** The outer loop, split at the node whose search succeeds. *)
Lemma detect_from_app f pre rest seen seen' :
  detect_from f graph pre seen = Ok (None, seen') →
  detect_from f graph (pre ++ rest) seen = detect_from f graph rest seen'.
Proof.
  revert seen. induction pre as [|n pre IH]; intros seen; simpl.
  - by intros [= ->].
  - destruct (decide (n ∉ seen)); [|by apply IH].
    destruct (dfs f graph n [n] (Marks seen ∅)) as [[r m']|]; [|done].
    destruct (truthy r) eqn:Ht; [|by apply IH].
    intros [= -> _]. done.
Qed.

Lemma detect_from_Some f nodes seen c V :
  detect_from f graph nodes seen = Ok (Some c, V) →
  ∃ pre node post seen' m',
    nodes = pre ++ node :: post ∧
    detect_from f graph pre seen = Ok (None, seen') ∧
    (node ∉ seen') ∧
    dfs f graph node [node] (Marks seen' ∅) = Ok (Some c, m').
Proof.
  revert seen. induction nodes as [|n rest IH]; intros seen; simpl; [done|].
  destruct (decide (n ∉ seen)) as [Hfresh | Hseen].
  - destruct (dfs f graph n [n] (Marks seen ∅)) as [[r m']|] eqn:Hrun; [|done].
    destruct (truthy r) eqn:Ht.
    + intros [= -> <-]. exists [], n, rest, seen, m'. done.
    + intros (pre & node & post & seen' & m'' & -> & Hpre & Hn & Hd)%IH.
      exists (n :: pre), node, post, seen', m''. split; [done|].
      split; [|done]. simpl. rewrite decide_True by done. by rewrite Hrun, Ht.
  - intros (pre & node & post & seen' & m'' & -> & Hpre & Hn & Hd)%IH.
    exists (n :: pre), node, post, seen', m''. split; [done|].
    split; [|done]. simpl. rewrite decide_False by done. done.
Qed.

End Detector.

(** ** The graph builder *)

Section Builder.
Variable assemblies : Dict.t asmdef.
Implicit Types (g : graph_t) (refs : list string).

Lemma known_references_cons ref refs :
  known_references assemblies (ref :: refs) =
    if Dict.mem assemblies ref then ref :: known_references assemblies refs
    else known_references assemblies refs.
Proof.
  unfold known_references. destruct (Dict.mem assemblies ref) eqn:Hm.
  - by rewrite filter_cons_True.
  - rewrite filter_cons_False; [done | congruence].
Qed.

Lemma known_references_elem ref refs :
  ref ∈ known_references assemblies refs ↔ ref ∈ refs ∧ ref ∈ Dict.keys assemblies.
Proof.
  unfold known_references. rewrite list_elem_of_filter, DictFacts.mem_true. tauto.
Qed.

Lemma add_references_bound g name l refs :
  name ∉ Dict.keys g →
  add_references assemblies (g ++ [(name, l)]) name refs =
    g ++ [(name, l ++ known_references assemblies refs)].
Proof.
  intros Hname. revert l. unfold add_references.
  induction refs as [|ref refs IH]; intros l; simpl.
  - by rewrite app_nil_r.
  - rewrite known_references_cons. destruct (Dict.mem assemblies ref); [|apply IH].
    unfold graph_append, graph_get, Dict.get_default.
    rewrite DictFacts.get_app_notin, DictFacts.set_app_notin by done. simpl.
    rewrite !decide_True by done. simpl.
    rewrite IH. by rewrite <- app_assoc.
Qed.

Lemma add_references_fresh g name refs :
  name ∉ Dict.keys g →
  add_references assemblies g name refs =
    g ++ match known_references assemblies refs with
         | [] => []
         | l => [(name, l)]
         end.
Proof.
  intros Hname. induction refs as [|ref refs IH].
  - simpl. by rewrite app_nil_r.
  - rewrite known_references_cons.
    change (add_references assemblies g name (ref :: refs)) with
      (add_references assemblies
         (if Dict.mem assemblies ref then graph_append g name ref else g) name refs).
    destruct (Dict.mem assemblies ref); [|apply IH].
    unfold graph_append, graph_get, Dict.get_default.
    apply DictFacts.get_None in Hname as Hget. rewrite Hget. simpl.
    rewrite DictFacts.set_notin by done.
    by rewrite add_references_bound.
Qed.

Lemma keys_linked items k : k ∈ Dict.keys (linked assemblies items) → k ∈ Dict.keys items.
Proof.
  unfold Dict.keys, linked. intros ([k' l] & -> & Hin)%list_elem_of_fmap.
  apply list_elem_of_bind in Hin as ([n a] & Hin & Hitem). simpl in *.
  apply list_elem_of_fmap. exists (n, a). split; [|done].
  destruct (known_references assemblies (references a));
    [by apply elem_of_nil in Hin | by apply list_elem_of_singleton in Hin as [= -> _]].
Qed.

Lemma link_from items g :
  NoDup (Dict.keys items) → (∀ k, k ∈ Dict.keys items → k ∉ Dict.keys g) →
  fold_left (λ graph item,
      add_references assemblies graph item.1 (references item.2)) items g
    = g ++ linked assemblies items.
Proof.
  revert g. induction items as [|[n a] items IH]; intros g Hnd Hfresh; simpl.
  - by rewrite app_nil_r.
  - apply NoDup_cons in Hnd as [Hn Hnd].
    rewrite add_references_fresh by (apply Hfresh; left).
    rewrite IH; [by rewrite <- app_assoc | done |].
    intros k Hk. unfold Dict.keys. rewrite fmap_app, elem_of_app.
    intros [Hg | Hx].
    + apply (Hfresh k); [by right | done].
    + assert (k = n) as ->; [|done].
      destruct (known_references assemblies (references a));
        [by apply elem_of_nil in Hx | by apply list_elem_of_singleton in Hx].
Qed.

Lemma graph_get_linked_notin items k :
  k ∉ Dict.keys items → graph_get (linked assemblies items) k = [].
Proof.
  intros Hk. unfold graph_get, Dict.get_default.
  destruct (Dict.get (linked assemblies items) k) eqn:Hget; [|done].
  destruct Hk. apply keys_linked, DictFacts.get_is_Some. eauto.
Qed.

Lemma graph_get_linked items k a :
  NoDup (Dict.keys items) → (k, a) ∈ items →
  graph_get (linked assemblies items) k = known_references assemblies (references a).
Proof.
  induction items as [|[n b] items IH]; [by intros _ ?%elem_of_nil|].
  intros [Hn Hnd]%NoDup_cons Hin.
  change (linked assemblies ((n, b) :: items)) with
    (match known_references assemblies (references b) with
     | [] => []
     | refs => [(n, refs)]
     end ++ linked assemblies items).
  apply elem_of_cons in Hin as [[= -> ->] | Hin].
  - destruct (known_references assemblies (references b)) eqn:Hk; simpl.
    + by apply graph_get_linked_notin.
    + unfold graph_get, Dict.get_default. simpl. by rewrite decide_True.
  - assert (k ≠ n) as Hne.
    { intros ->. apply Hn. apply list_elem_of_fmap. by exists (n, a). }
    rewrite <- IH by done. unfold graph_get, Dict.get_default. f_equal.
    destruct (known_references assemblies (references b)); [done|].
    simpl. by rewrite decide_False.
Qed.

End Builder.

Lemma link_assemblies_linked assemblies :
  NoDup (Dict.keys assemblies) → link_assemblies assemblies = linked assemblies assemblies.
Proof.
  intros Hnd. unfold link_assemblies. rewrite link_from; [done | done |].
  intros k _ ?%elem_of_nil. done.
Qed.

Section Collect.
Variable json_load : string → string + json_data.
Implicit Types (acc : Dict.t asmdef * list line) (files : list string).

Lemma collect_step_keys acc f :
  NoDup (Dict.keys acc.1) → NoDup (Dict.keys (collect_step json_load acc f).1).
Proof.
  destruct acc as [d out]. unfold collect_step.
  destruct (parse_asmdef json_load f) as [[a|] w]; simpl; [|done].
  apply DictFacts.NoDup_keys_set.
Qed.

Lemma collect_fold_keys files acc :
  NoDup (Dict.keys acc.1) →
  NoDup (Dict.keys (fold_left (collect_step json_load) files acc).1).
Proof.
  revert acc. induction files as [|f files IH]; intros acc Hacc; simpl; [done|].
  by apply IH, collect_step_keys.
Qed.

Lemma built_assemblies_NoDup files : NoDup (Dict.keys (built_assemblies json_load files)).
Proof. apply collect_fold_keys. constructor. Qed.

Lemma build_dependency_graph_eq files :
  build_dependency_graph json_load files =
    (built_graph json_load files, built_assemblies json_load files,
     build_warnings json_load files).
Proof.
  unfold build_dependency_graph, built_graph, built_assemblies, build_warnings.
  by destruct (collect_assemblies json_load files).
Qed.

Lemma built_graph_linked files :
  built_graph json_load files =
    linked (built_assemblies json_load files) (built_assemblies json_load files).
Proof. apply link_assemblies_linked, built_assemblies_NoDup. Qed.

(** The adjacency list of a known module: its references to known
    modules, in declared order. *)
Lemma built_graph_get files k a :
  Dict.get (built_assemblies json_load files) k = Some a →
  graph_get (built_graph json_load files) k =
    known_references (built_assemblies json_load files) (references a).
Proof.
  intros Hget. rewrite built_graph_linked.
  apply graph_get_linked; [apply built_assemblies_NoDup|].
  by apply DictFacts.get_Some_elem.
Qed.

Lemma built_edge_known files s t :
  edge (built_graph json_load files) s t →
  s ∈ Dict.keys (built_assemblies json_load files) ∧
  t ∈ Dict.keys (built_assemblies json_load files).
Proof.
  intros Hedge.
  assert (s ∈ Dict.keys (built_assemblies json_load files)) as Hs.
  { apply edge_source_key in Hedge. rewrite built_graph_linked in Hedge.
    by apply keys_linked in Hedge. }
  split; [done|].
  apply DictFacts.get_is_Some in Hs as [a Ha].
  unfold edge in Hedge. rewrite (built_graph_get _ _ _ Ha) in Hedge.
  by apply known_references_elem in Hedge as [_ ?].
Qed.

End Collect.

(** ** The isolation checker *)

Section Isolation.
Variable assemblies : Dict.t asmdef.

Lemma feature_assemblies_elem ref :
  ref ∈ feature_assemblies assemblies ↔
    is_feature ref = true ∧ ref ∈ Dict.keys assemblies.
Proof. unfold feature_assemblies. by rewrite list_elem_of_filter. Qed.

Lemma shared_assemblies_elem s :
  s ∈ shared_assemblies assemblies ↔ is_shared s = true ∧ s ∈ Dict.keys assemblies.
Proof. unfold shared_assemblies. by rewrite list_elem_of_filter. Qed.

(** The inner loop over the adjacency list of a shared module. *)
Lemma inner_loop_filter s targets :
  is_shared s = true → (∀ t, t ∈ targets → t ∈ Dict.keys assemblies) →
  (ref ← targets;
   if bool_decide (ref ∈ feature_assemblies assemblies) then [(s, ref)] else [])
    = filter shared_to_feature (pair s <$> targets).
Proof.
  intros Hs. induction targets as [|t targets IH]; intros Hknown; [done|].
  rewrite bind_cons, fmap_cons, IH by (intros; apply Hknown; by right).
  destruct (is_feature t) eqn:Hf.
  - rewrite bool_decide_eq_true_2, filter_cons_True; [done | done |].
    apply feature_assemblies_elem. split; [done | apply Hknown; by left].
  - rewrite bool_decide_eq_false_2, filter_cons_False; [done | |].
    + intros [_ Hft]. simpl in Hft. congruence.
    + intros [? _]%feature_assemblies_elem. congruence.
Qed.

Lemma unshared_filter s (targets : list string) :
  is_shared s = false → filter shared_to_feature (pair s <$> targets) = [].
Proof.
  intros Hs. induction targets as [|t targets IH]; [done|].
  rewrite fmap_cons, filter_cons_False; [done|].
  intros [Hst _]. simpl in Hst. congruence.
Qed.

Lemma graph_edges_linked_cons n a items :
  graph_edges (linked assemblies ((n, a) :: items)) =
    (pair n <$> known_references assemblies (references a)) ++
    graph_edges (linked assemblies items).
Proof.
  unfold graph_edges, linked. rewrite bind_cons, bind_app. f_equal. simpl.
  destruct (known_references assemblies (references a)); [done|].
  by rewrite bind_singleton.
Qed.

Lemma scan_linked graph items :
  (∀ k a, (k, a) ∈ items →
     graph_get graph k = known_references assemblies (references a)) →
  (s ← filter (λ name, is_shared name = true) (Dict.keys items);
   ref ← graph_get graph s;
   if bool_decide (ref ∈ feature_assemblies assemblies) then [(s, ref)] else [])
    = filter shared_to_feature (graph_edges (linked assemblies items)).
Proof.
  induction items as [|[n a] items IH]; intros Hget; [done|].
  rewrite graph_edges_linked_cons, filter_app.
  rewrite <- IH by (intros; apply Hget; by right).
  change (Dict.keys ((n, a) :: items)) with (n :: Dict.keys items).
  destruct (is_shared n) eqn:Hs.
  - rewrite filter_cons_True, bind_cons by done. f_equal.
    rewrite (Hget n a) by left. apply inner_loop_filter; [done|].
    by intros t [_ ?]%known_references_elem.
  - rewrite filter_cons_False by congruence. by rewrite unshared_filter.
Qed.

End Isolation.

Lemma isolation_violations_built json_load files :
  isolation_violations (built_graph json_load files) (built_assemblies json_load files)
    = filter shared_to_feature (graph_edges (built_graph json_load files)).
Proof.
  rewrite (built_graph_linked json_load files) at 2.
  unfold isolation_violations, shared_assemblies. apply scan_linked.
  intros k a Hin. apply built_graph_get.
  apply DictFacts.elem_get; [apply built_assemblies_NoDup | done].
Qed.

Lemma graph_edges_elem graph s t :
  NoDup (Dict.keys graph) → (s, t) ∈ graph_edges graph ↔ edge graph s t.
Proof.
  intros Hnd. unfold graph_edges, edge, graph_get, Dict.get_default.
  rewrite list_elem_of_bind. split.
  - intros ([k l] & Hin & Hitem). simpl in Hin.
    apply list_elem_of_fmap in Hin as (t' & [= -> ->] & Ht).
    by rewrite (DictFacts.elem_get _ _ _ Hnd Hitem).
  - intros Ht. destruct (Dict.get graph s) as [l|] eqn:Hget;
      [|by apply elem_of_nil in Ht].
    exists (s, l). split; [|by apply DictFacts.get_Some_elem].
    simpl. apply list_elem_of_fmap. eauto.
Qed.

Lemma linked_NoDup assemblies items :
  NoDup (Dict.keys items) → NoDup (Dict.keys (linked assemblies items)).
Proof.
  induction items as [|[n a] items IH]; [constructor|].
  intros [Hn Hnd]%NoDup_cons.
  change (linked assemblies ((n, a) :: items)) with
    (match known_references assemblies (references a) with
     | [] => []
     | refs => [(n, refs)]
     end ++ linked assemblies items).
  destruct (known_references assemblies (references a)); simpl; [auto|].
  apply NoDup_cons. split; [|auto]. by intros ?%keys_linked.
Qed.

Lemma built_graph_NoDup json_load files :
  NoDup (Dict.keys (built_graph json_load files)).
Proof. rewrite built_graph_linked. apply linked_NoDup, built_assemblies_NoDup. Qed.

(** ** The first pass, file by file *)

Section CollectFacts.
Variable json_load : string → string + json_data.
Implicit Types (acc : Dict.t asmdef * list line) (files : list string).

Lemma collect_step_get acc f n :
  Dict.get (collect_step json_load acc f).1 n =
    match (parse_asmdef json_load f).1 with
    | Some a => if decide (name a = n) then Some a else Dict.get acc.1 n
    | None => Dict.get acc.1 n
    end.
Proof.
  destruct acc as [d out]. unfold collect_step.
  destruct (parse_asmdef json_load f) as [[a|] w]; simpl; [|done].
  case_decide; subst; [apply DictFacts.get_set_eq | by apply DictFacts.get_set_ne].
Qed.

Lemma collect_step_warnings acc f :
  (collect_step json_load acc f).2 = acc.2 ++ (parse_asmdef json_load f).2.
Proof.
  destruct acc as [d out]. unfold collect_step.
  by destruct (parse_asmdef json_load f) as [[a|] w].
Qed.

(** Files that do not declare [n] leave its record alone. *)
Lemma collect_fold_untouched files acc n :
  (∀ f a, f ∈ files → (parse_asmdef json_load f).1 = Some a → name a ≠ n) →
  Dict.get (fold_left (collect_step json_load) files acc).1 n = Dict.get acc.1 n.
Proof.
  revert acc. induction files as [|f files IH]; intros acc Hother; simpl; [done|].
  rewrite IH by (intros g a ?; apply Hother; by right).
  rewrite collect_step_get.
  destruct (parse_asmdef json_load f).1 as [a|] eqn:Hp; [|done].
  rewrite decide_False; [done|]. eapply Hother; [by left | done].
Qed.

(** Two runs that agree on every name but [n] keep doing so. *)
Lemma collect_fold_agree files acc acc' n :
  (∀ n', n' ≠ n → Dict.get acc.1 n' = Dict.get acc'.1 n') →
  ∀ n', n' ≠ n →
    Dict.get (fold_left (collect_step json_load) files acc).1 n' =
    Dict.get (fold_left (collect_step json_load) files acc').1 n'.
Proof.
  revert acc acc'. induction files as [|f files IH]; intros acc acc' Hagree; simpl; [done|].
  apply IH. intros n' Hn'. rewrite !collect_step_get.
  destruct (parse_asmdef json_load f).1; [case_decide|]; auto.
Qed.

(** A name of the module set stays in it. *)
Lemma collect_fold_keeps files acc n :
  is_Some (Dict.get acc.1 n) →
  is_Some (Dict.get (fold_left (collect_step json_load) files acc).1 n).
Proof.
  revert acc. induction files as [|f files IH]; intros acc Hacc; simpl; [done|].
  apply IH. rewrite collect_step_get.
  destruct (parse_asmdef json_load f).1; [case_decide; eauto | done].
Qed.

(** A record in the module set was there before or comes from one of
    the files processed. *)
Lemma collect_fold_origin files acc n a :
  Dict.get (fold_left (collect_step json_load) files acc).1 n = Some a →
  Dict.get acc.1 n = Some a ∨
  ∃ f, f ∈ files ∧ (parse_asmdef json_load f).1 = Some a ∧ name a = n.
Proof.
  revert acc. induction files as [|f files IH]; intros acc; simpl; [by left|].
  intros [Hacc | (g & Hg & Hparse & Hname)]%IH.
  - rewrite collect_step_get in Hacc.
    destruct (parse_asmdef json_load f).1 as [b|] eqn:Hp; [|by left].
    case_decide; [|by left]. simplify_eq. right. exists f. split; [by left | done].
  - right. exists g. split; [by right | done].
Qed.

Lemma collect_fold_warnings files acc :
  (fold_left (collect_step json_load) files acc).2 =
    acc.2 ++ (f ← files; (parse_asmdef json_load f).2).
Proof.
  revert acc. induction files as [|f files IH]; intros acc; simpl.
  - by rewrite app_nil_r.
  - by rewrite IH, collect_step_warnings, <- app_assoc.
Qed.

Lemma build_warnings_lines files l :
  l ∈ build_warnings json_load files → ∃ f e, l = ErrorParsing f e.
Proof.
  unfold build_warnings, collect_assemblies. rewrite collect_fold_warnings. simpl.
  intros (f & Hl & _)%list_elem_of_bind. unfold parse_asmdef in Hl.
  destruct (json_load f) as [e|d]; simpl in Hl.
  - apply list_elem_of_singleton in Hl. eauto.
  - by apply elem_of_nil in Hl.
Qed.

End CollectFacts.

(** ** The driver *)

Section DriverFacts.
Variable recursion_limit : nat.
Variable getcwd : string.
Variable find_asmdef_files : string → list string.
Variable json_load : string → string + json_data.

Let files := find_asmdef_files getcwd.
Let graph := built_graph json_load files.
Let assemblies := built_assemblies json_load files.

Lemma preamble_lines l :
  l ∈ preamble getcwd find_asmdef_files json_load →
  match l with
  | Analyzing _ | FoundFiles _ | ErrorParsing _ _ | Discovered _
  | AssemblyLine _ _ | CheckingCycles => True
  | _ => False
  end.
Proof.
  unfold preamble. rewrite !elem_of_app, !elem_of_cons, list_elem_of_fmap.
  intros [[-> | [-> | ?%elem_of_nil]] | [Hw | [[-> | ?%elem_of_nil]
           | [(n & -> & _) | [-> | ?%elem_of_nil]]]]]; try done.
  by apply build_warnings_lines in Hw as (f & e & ->).
Qed.

(** The ways a run ends, by what the detector does. *)
Lemma main_cases :
  match detect_circular_dependencies recursion_limit graph with
  | Ok (Some c) =>
      reported graph c ∧
      main recursion_limit getcwd find_asmdef_files json_load =
        (preamble getcwd find_asmdef_files json_load
           ++ [CycleDetected; CyclePath c], Ok 1%Z)
  | Ok None =>
      main recursion_limit getcwd find_asmdef_files json_load =
        match validate_shared_namespace_isolation graph assemblies with
        | [] =>
            (preamble getcwd find_asmdef_files json_load
               ++ [NoCycles; ValidatingIsolation; Isolated; AllPassed], Ok 0%Z)
        | violations =>
            (preamble getcwd find_asmdef_files json_load
               ++ [NoCycles; ValidatingIsolation; ViolationsHeader]
               ++ (ViolationLine <$> violations), Ok 1%Z)
        end
  | Raise e =>
      e = RecursionError ∧
      main recursion_limit getcwd find_asmdef_files json_load =
        (preamble getcwd find_asmdef_files json_load, Raise e)
  end.
Proof.
  unfold main, preamble. rewrite build_dependency_graph_eq.
  fold files. fold graph. fold assemblies.
  destruct (detect_circular_dependencies recursion_limit graph) as [[c|] | e] eqn:Hdet.
  - pose proof (detect_Some _ _ _ Hdet) as Hrep. split; [done|].
    rewrite (truthy_reported _ _ Hrep).
    do 3 (simpl; rewrite <- ?app_assoc). done.
  - simpl truthy. cbv iota.
    destruct (validate_shared_namespace_isolation graph assemblies);
      do 3 (simpl; rewrite <- ?app_assoc); done.
  - split; [by apply (detect_Raise graph recursion_limit)|].
    do 3 (simpl; rewrite <- ?app_assoc). done.
Qed.

End DriverFacts.

(** An edge that reaches a node on the recursion stack ends the loop of
    [dfs] at once, with a cycle that every caller passes on. *)
Lemma stack_revisit_returns rec node path neighbor rest m :
  neighbor ∈ visited m → neighbor ∈ rec_stack m → neighbor ∈ path →
  ∃ c, dfs_neighbors rec node path (neighbor :: rest) m = Ok (Some c, m) ∧
    truthy (Some c) = true.
Proof.
  intros Hvisited Hstack Hpath. simpl.
  rewrite decide_False by (by intros ?). rewrite decide_True by done.
  destruct (index_elem path neighbor Hpath) as [i ->].
  eexists. split; [done|]. by destruct (drop i path).
Qed.

(** ** Deep graphs *)









(** *** The chain *)





(** *** The ring *)










(** *** The project whose graph is the chain *)







(** ** Cycle detection: the stated properties *)










Example scenario_A :
  detect_circular_dependencies default_recursion_limit graph_triangle
    = Ok (Some ["A"; "B"; "C"; "A"]).
Proof. vm_compute. reflexivity. Qed.

(** A graph whose first key lists itself first: the first search meets
    its own start node on the stack at once. *)
Lemma detect_self_first (recursion_limit : nat) (graph : graph_t) n ks rest :
  0 < recursion_limit →
  Dict.keys graph = n :: ks → graph_get graph n = n :: rest →
  detect_circular_dependencies recursion_limit graph = Ok (Some [n; n]).
Proof.
  intros Hlimit Hkeys Hget. unfold detect_circular_dependencies, detect_run.
  destruct recursion_limit as [|f]; [lia|].
  rewrite Hkeys. simpl. rewrite decide_True by set_solver.
  rewrite Hget. simpl.
  rewrite decide_False by set_solver. rewrite decide_True by set_solver.
  simpl. rewrite decide_True by done. done.
Qed.

(** C10 (amended). A module that lists its own name gets a self-edge and
    the run fails with exit code 1: the detector reports a cycle, unless
    its search first exceeds the recursion limit and the run ends in
    [RecursionError]; within the recursion limit a cycle is always
    reported, and it is [name; name] when the module is the only one of
    the set. *)
Theorem C10_self_reference_fails (recursion_limit : nat) (getcwd : string)
    (find_asmdef_files : string → list string)
    (json_load : string → string + json_data) (n : string) (a : asmdef) :
  let files := find_asmdef_files getcwd in
  let graph := built_graph json_load files in
  let assemblies := built_assemblies json_load files in
  let run := main recursion_limit getcwd find_asmdef_files json_load in
  Dict.get assemblies n = Some a → n ∈ references a →
  edge graph n n ∧
  exit_status run.2 = 1%Z ∧
  ((∃ c, detect_circular_dependencies recursion_limit graph = Ok (Some c) ∧
         run.2 = Ok 1%Z ∧ CyclePath c ∈ run.1) ∨
   (detect_circular_dependencies recursion_limit graph = Raise RecursionError ∧
    run.2 = Raise RecursionError)) ∧
  (depth_bounded graph recursion_limit →
     ∃ c, detect_circular_dependencies recursion_limit graph = Ok (Some c) ∧
          CyclePath c ∈ run.1) ∧
  (Dict.keys assemblies = [n] → 0 < recursion_limit →
     detect_circular_dependencies recursion_limit graph = Ok (Some [n; n])).
Proof.
  intros files graph assemblies run Hget Hself.
  assert (n ∈ Dict.keys assemblies) as Hkey by (apply DictFacts.get_is_Some; eauto).
  assert (graph_get graph n = known_references assemblies (references a)) as Hadj
    by (by apply built_graph_get).
  assert (edge graph n n) as Hedge.
  { unfold edge. rewrite Hadj. by apply known_references_elem. }
  destruct (tc_is_cycle graph n) as [c0 Hc0]; [by apply tc_once|].
  pose proof (main_cases recursion_limit getcwd find_asmdef_files json_load) as Hmain.
  fold files in Hmain. fold graph in Hmain. fold assemblies in Hmain. fold run in Hmain.
  assert ((∃ c, detect_circular_dependencies recursion_limit graph = Ok (Some c) ∧
                run.2 = Ok 1%Z ∧ CyclePath c ∈ run.1) ∨
          (detect_circular_dependencies recursion_limit graph = Raise RecursionError ∧
           run.2 = Raise RecursionError)) as Hends.
  { destruct (detect_circular_dependencies recursion_limit graph) as [[c|] | e] eqn:Hdet.
    - left. destruct Hmain as [_ ->]. exists c. split; [done|]. split; [done|].
      cbn [fst]. apply elem_of_app. right. set_solver.
    - by destruct (detect_None _ _ Hdet c0).
    - right. destruct Hmain as [-> ->]. done. }
  split; [done|]. split_and!.
  - destruct Hends as [(c & _ & -> & _) | [_ ->]]; done.
  - done.
  - intros Hbound. destruct Hends as [(c & Hc & _ & Hin) | [Hraise _]]; [by exists c|].
    destruct (detect_cyclic graph recursion_limit c0 Hbound Hc0) as [c Hc]. congruence.
  - intros Halone Hlimit.
    assert (∀ t, edge graph n t → t = n) as Hall.
    { intros t Ht. apply built_edge_known in Ht as [_ Ht].
      fold files in Ht. fold assemblies in Ht. rewrite Halone in Ht.
      by apply list_elem_of_singleton in Ht. }
    assert (n ∈ Dict.keys graph) as Hgk by (by eapply edge_source_key).
    assert (∀ k, k ∈ Dict.keys graph → k = n) as Honly.
    { intros k Hk. unfold graph in Hk. rewrite built_graph_linked in Hk.
      apply keys_linked in Hk. fold files in Hk. fold assemblies in Hk.
      rewrite Halone in Hk. by apply list_elem_of_singleton in Hk. }
    destruct (Dict.keys graph) as [|k ks] eqn:Hks; [by apply elem_of_nil in Hgk|].
    assert (k = n) as -> by (apply Honly; left).
    unfold edge in Hedge, Hall.
    destruct (graph_get graph n) as [|t rest] eqn:Hts; [by apply elem_of_nil in Hedge|].
    assert (t = n) as -> by (apply Hall; left).
    by eapply detect_self_first.
Qed.

Lemma C10_self_reference_fails_witness :
  let graph := built_graph (disk project_self) (listing project_self "/") in
  let assemblies := built_assemblies (disk project_self) (listing project_self "/") in
  let run := main default_recursion_limit "/" (listing project_self) (disk project_self) in
  edge graph "A" "A" ∧
  exit_status run.2 = 1%Z ∧
  ((∃ c, detect_circular_dependencies default_recursion_limit graph = Ok (Some c) ∧
         run.2 = Ok 1%Z ∧ CyclePath c ∈ run.1) ∨
   (detect_circular_dependencies default_recursion_limit graph = Raise RecursionError ∧
    run.2 = Raise RecursionError)) ∧
  (depth_bounded graph default_recursion_limit →
     ∃ c, detect_circular_dependencies default_recursion_limit graph = Ok (Some c) ∧
          CyclePath c ∈ run.1) ∧
  (Dict.keys assemblies = ["A"] → 0 < default_recursion_limit →
     detect_circular_dependencies default_recursion_limit graph = Ok (Some ["A"; "A"])).
Proof.
  apply (C10_self_reference_fails default_recursion_limit "/" (listing project_self)
           (disk project_self) "A" (Asmdef "A" ["A"; "X"] "A.asmdef")).
  - vm_compute. reflexivity.
  - simpl. left.
Defined.

(** C10, as stated, fails: the module [A] lists itself, and the cycle
    reported is not [A; A]. *)
Lemma C10_counterexample :
  let files := listing project_self_and_loop "/" in
  let assemblies := built_assemblies (disk project_self_and_loop) files in
  let graph := built_graph (disk project_self_and_loop) files in
  (∃ a, Dict.get assemblies "A" = Some a ∧ "A" ∈ references a) ∧
  detect_circular_dependencies default_recursion_limit graph = Ok (Some ["A"; "B"; "A"]) ∧
  detect_circular_dependencies default_recursion_limit graph ≠ Ok (Some ["A"; "A"]).
Proof.
  split_and!.
  - eexists. split; [vm_compute; reflexivity|]. simpl. set_solver.
  - vm_compute. reflexivity.
  - vm_compute. discriminate.
Qed.

(** C6 (amended). The searches start from the unvisited keys of the
    graph in the order in which the dictionary holds them, and the cycle
    returned is the one found by the first search that finds any: the
    keys before its start node were searched without result. *)
Theorem C6_first_cycle_in_key_order (recursion_limit : nat) (graph : graph_t)
    (c : list string) :
  detect_circular_dependencies recursion_limit graph = Ok (Some c) ↔
  ∃ pre node post seen m',
    Dict.keys graph = pre ++ node :: post ∧
    detect_from recursion_limit graph pre ∅ = Ok (None, seen) ∧
    (node ∉ seen) ∧
    dfs recursion_limit graph node [node] (Marks seen ∅) = Ok (Some c, m').
Proof.
  unfold detect_circular_dependencies, detect_run. split.
  - destruct (detect_from _ graph (Dict.keys graph) ∅) as [[r V]|] eqn:Hrun; [|done].
    intros [= ->]. by eapply detect_from_Some.
  - intros (pre & node & post & seen & m' & Hkeys & Hpre & Hfresh & Hdfs).
    rewrite Hkeys, (detect_from_app _ _ _ _ _ _ Hpre). simpl.
    rewrite decide_True by done. rewrite Hdfs.
    pose proof (detect_from_ok graph recursion_limit pre ∅ (settled_empty graph)) as Hrun.
    rewrite Hpre in Hrun. destruct Hrun as [_ [Hset _]].
    { intros k Hk. rewrite Hkeys. apply elem_of_app. by left. }
    pose proof (dfs_start graph recursion_limit node seen Hset) as Hstart.
    rewrite Hdfs in Hstart. destruct Hstart as [_ Hrep]; [rewrite Hkeys; set_solver | done |].
    by rewrite (truthy_reported _ _ Hrep).
Qed.

(** C6, as stated, fails: with the manifests found in the order [B],
    [A], the detector returns the cycle of [B], and a detector that starts
    in ascending order of the names returns the cycle of [A]. *)
Lemma C6_counterexample :
  let graph := built_graph (disk project_unsorted) (listing project_unsorted "/") in
  Dict.keys graph = ["B"; "A"] ∧
  detect_circular_dependencies default_recursion_limit graph = Ok (Some ["B"; "B"]) ∧
  detect_in_sorted_order default_recursion_limit graph = Ok (Some ["A"; "A"]) ∧
  detect_circular_dependencies default_recursion_limit graph
    ≠ detect_in_sorted_order default_recursion_limit graph.
Proof.
  split_and!; [vm_compute; reflexivity.. | vm_compute; discriminate].
Qed.

(** ** The driver: the stated properties *)

(** C1 (amended). The isolation check runs, and its violations are
    printed, exactly when the detector found no cycle; when a cycle is
    found the driver prints it and returns 1 at once, without running the
    isolation check (nor does it run when the search ends in
    [RecursionError]). *)
Theorem C1_isolation_only_without_cycle (recursion_limit : nat) (getcwd : string)
    (find_asmdef_files : string → list string)
    (json_load : string → string + json_data) :
  let files := find_asmdef_files getcwd in
  let graph := built_graph json_load files in
  let assemblies := built_assemblies json_load files in
  let run := main recursion_limit getcwd find_asmdef_files json_load in
  match detect_circular_dependencies recursion_limit graph with
  | Ok (Some c) =>
      CyclePath c ∈ run.1 ∧ run.2 = Ok 1%Z ∧
      (ValidatingIsolation ∉ run.1) ∧ (∀ v, ViolationLine v ∉ run.1)
  | Ok None =>
      (∃ code, run.2 = Ok code) ∧
      ValidatingIsolation ∈ run.1 ∧
      ∀ v, ViolationLine v ∈ run.1 ↔
           v ∈ validate_shared_namespace_isolation graph assemblies
  | Raise e =>
      run.2 = Raise e ∧
      (ValidatingIsolation ∉ run.1) ∧ (∀ v, ViolationLine v ∉ run.1)
  end.
Proof.
  intros files graph assemblies run.
  pose proof (main_cases recursion_limit getcwd find_asmdef_files json_load) as Hmain.
  fold files in Hmain. fold graph in Hmain. fold assemblies in Hmain. fold run in Hmain.
  pose proof (preamble_lines getcwd find_asmdef_files json_load) as Hpre.
  destruct (detect_circular_dependencies recursion_limit graph) as [[c|] | e].
  - destruct Hmain as [_ ->]. cbn [fst snd]. split_and!; [set_solver | done | |].
    + intros [Hin%Hpre | Hin]%elem_of_app; [done | set_solver].
    + intros v [Hin%Hpre | Hin]%elem_of_app; [done | set_solver].
  - rewrite Hmain.
    destruct (validate_shared_namespace_isolation graph assemblies) as [|v0 vs] eqn:Hvs;
      cbn [fst snd].
    + split; [eauto|]. split; [set_solver|].
      intros v. split; [|by intros ?%elem_of_nil].
      intros [Hin%Hpre | Hin]%elem_of_app; [done | set_solver].
    + split; [eauto|]. split; [set_solver|].
      intros v. rewrite !elem_of_app, list_elem_of_fmap. split.
      * intros [Hin%Hpre | [Hin | (w & [= ->] & Hw)]]; [done | set_solver | done].
      * intros Hv. right. right. eauto.
  - destruct Hmain as [_ ->]. cbn [fst snd]. split_and!; [done | |].
    + by intros Hin%Hpre.
    + by intros v Hin%Hpre.
Qed.

(** C1, as stated, fails: the project has a cycle and an isolation
    violation, and the run prints the cycle and no violation. *)
Lemma C1_counterexample :
  let files := listing project_cycle_and_violation "/" in
  let graph := built_graph (disk project_cycle_and_violation) files in
  let assemblies := built_assemblies (disk project_cycle_and_violation) files in
  let v := violation_message ("SharedCore", "FeatureLogin") in
  v ∈ validate_shared_namespace_isolation graph assemblies ∧
  ∃ out,
    main default_recursion_limit "/" (listing project_cycle_and_violation)
      (disk project_cycle_and_violation) = (out, Ok 1%Z) ∧
    CyclePath ["A"; "A"] ∈ out ∧ ViolationLine v ∉ out.
Proof.
  split.
  - vm_compute. left.
  - eexists. split; [vm_compute; reflexivity|]. split; [set_solver|].
    rewrite !elem_of_cons. intros Hin.
    repeat (destruct Hin as [Hin | Hin]; [discriminate Hin|]).
    by apply elem_of_nil in Hin.
Qed.

Example scenario_A_run :
  main default_recursion_limit "/"
    (listing [("A.asmdef", manifest "A" ["B"]); ("B.asmdef", manifest "B" ["C"]);
              ("C.asmdef", manifest "C" ["A"])])
    (disk [("A.asmdef", manifest "A" ["B"]); ("B.asmdef", manifest "B" ["C"]);
           ("C.asmdef", manifest "C" ["A"])])
  = ([Analyzing "/"; FoundFiles 3; Discovered 3;
      AssemblyLine "A" 1; AssemblyLine "B" 1; AssemblyLine "C" 1;
      CheckingCycles; CycleDetected; CyclePath ["A"; "B"; "C"; "A"]], Ok 1%Z).
Proof. vm_compute. reflexivity. Qed.

Example scenario_B_run :
  main default_recursion_limit "/"
    (listing [("A.asmdef", manifest "A" ["B"]); ("B.asmdef", manifest "B" ["C"]);
              ("C.asmdef", manifest "C" [])])
    (disk [("A.asmdef", manifest "A" ["B"]); ("B.asmdef", manifest "B" ["C"]);
           ("C.asmdef", manifest "C" [])])
  = ([Analyzing "/"; FoundFiles 3; Discovered 3;
      AssemblyLine "A" 1; AssemblyLine "B" 1; AssemblyLine "C" 0;
      CheckingCycles; NoCycles; ValidatingIsolation; Isolated; AllPassed], Ok 0%Z).
Proof. vm_compute. reflexivity. Qed.

Example scenario_C_run :
  main default_recursion_limit "/" (listing project_violation) (disk project_violation)
  = ([Analyzing "/"; FoundFiles 2; Discovered 2;
      AssemblyLine "FeatureLogin" 0; AssemblyLine "SharedCore" 1;
      CheckingCycles; NoCycles; ValidatingIsolation; ViolationsHeader;
      ViolationLine (violation_message ("SharedCore", "FeatureLogin"))], Ok 1%Z).
Proof. vm_compute. reflexivity. Qed.

Example scenario_E_run :
  main default_recursion_limit "/" (listing []) (disk [])
  = ([Analyzing "/"; FoundFiles 0; Discovered 0; CheckingCycles; NoCycles;
      ValidatingIsolation; Isolated; AllPassed], Ok 0%Z).
Proof. vm_compute. reflexivity. Qed.

Example unreadable_manifest_skipped :
  main default_recursion_limit "/" (λ _, ["A.asmdef"; "broken.asmdef"])
    (disk [("A.asmdef", manifest "A" []); ("broken.asmdef", inl "Expecting value")])
  = ([Analyzing "/"; FoundFiles 2; ErrorParsing "broken.asmdef" "Expecting value";
      Discovered 1; AssemblyLine "A" 0; CheckingCycles; NoCycles;
      ValidatingIsolation; Isolated; AllPassed], Ok 0%Z).
Proof. vm_compute. reflexivity. Qed.

(** A search that exceeds the recursion limit ends the run after the
    listing, with the exception and exit status 1. *)
Example recursion_error_run :
  main 2 "/"
    (listing [("A.asmdef", manifest "A" ["B"]); ("B.asmdef", manifest "B" ["C"]);
              ("C.asmdef", manifest "C" [])])
    (disk [("A.asmdef", manifest "A" ["B"]); ("B.asmdef", manifest "B" ["C"]);
           ("C.asmdef", manifest "C" [])])
  = ([Analyzing "/"; FoundFiles 3; Discovered 3;
      AssemblyLine "A" 1; AssemblyLine "B" 1; AssemblyLine "C" 0;
      CheckingCycles], Raise RecursionError).
Proof. vm_compute. reflexivity. Qed.





(** ** The isolation checker: the stated properties *)

(** C4 (amended). The violation list has one entry for each
    shared-to-feature edge entry of the graph, counted with multiplicity
    and in the order of the graph: nothing is skipped and nothing is
    merged. *)
Theorem C4_one_violation_per_edge_entry
    (json_load : string → string + json_data) (files : list string) :
  let graph := built_graph json_load files in
  let assemblies := built_assemblies json_load files in
  validate_shared_namespace_isolation graph assemblies =
    violation_message <$> filter shared_to_feature (graph_edges graph) ∧
  length (validate_shared_namespace_isolation graph assemblies) =
    length (filter shared_to_feature (graph_edges graph)).
Proof.
  intros graph assemblies. unfold validate_shared_namespace_isolation.
  unfold graph, assemblies. rewrite isolation_violations_built.
  split; [done | by rewrite length_fmap].
Qed.

(** C4, as stated, fails: the graph has one distinct shared-to-feature
    edge, listed twice, and the violation list has two entries. *)
Lemma C4_counterexample :
  let files := listing project_repeated_reference "/" in
  let graph := built_graph (disk project_repeated_reference) files in
  let assemblies := built_assemblies (disk project_repeated_reference) files in
  graph = [("SharedCore", ["FeatureLogin"; "FeatureLogin"])] ∧
  distinct_shared_to_feature graph = 1 ∧
  length (validate_shared_namespace_isolation graph assemblies) = 2.
Proof. split_and!; vm_compute; reflexivity. Qed.

(** C5. For an edge from [s] to [t], a violation is recorded for the
    pair exactly when [s] contains ["Shared"] and [t] contains neither
    ["Shared"] nor ["Unity."]. *)
Theorem C5_violation_iff_shared_to_feature
    (json_load : string → string + json_data) (files : list string) (s t : string) :
  let graph := built_graph json_load files in
  let assemblies := built_assemblies json_load files in
  edge graph s t →
  ((s, t) ∈ isolation_violations graph assemblies ↔
     contains "Shared" s = true ∧
     contains "Shared" t = false ∧ contains "Unity." t = false) ∧
  ((s, t) ∈ isolation_violations graph assemblies →
     violation_message (s, t) ∈ validate_shared_namespace_isolation graph assemblies).
Proof.
  intros graph assemblies Hedge. split.
  - unfold graph, assemblies. rewrite isolation_violations_built.
    rewrite list_elem_of_filter, graph_edges_elem by apply built_graph_NoDup.
    unfold shared_to_feature, is_shared, is_feature. simpl.
    rewrite negb_true_iff, orb_false_iff. fold graph. tauto.
  - intros Hin. unfold validate_shared_namespace_isolation.
    apply list_elem_of_fmap. by exists (s, t).
Qed.

Lemma C5_violation_iff_shared_to_feature_witness :
  let files := listing project_violation "/" in
  let graph := built_graph (disk project_violation) files in
  let assemblies := built_assemblies (disk project_violation) files in
  edge graph "SharedCore" "FeatureLogin" ∧
  ((("SharedCore", "FeatureLogin") ∈ isolation_violations graph assemblies ↔
     contains "Shared" "SharedCore" = true ∧
     contains "Shared" "FeatureLogin" = false ∧
     contains "Unity." "FeatureLogin" = false) ∧
   (("SharedCore", "FeatureLogin") ∈ isolation_violations graph assemblies →
     violation_message ("SharedCore", "FeatureLogin")
       ∈ validate_shared_namespace_isolation graph assemblies)).
Proof.
  assert (edge (built_graph (disk project_violation) (listing project_violation "/"))
            "SharedCore" "FeatureLogin") as Hedge.
  { unfold edge. vm_compute. left. }
  split; [exact Hedge|].
  exact (C5_violation_iff_shared_to_feature (disk project_violation)
           (listing project_violation "/") "SharedCore" "FeatureLogin" Hedge).
Defined.

Example scenario_C :
  isolation_violations
    (built_graph (disk project_violation) (listing project_violation "/"))
    (built_assemblies (disk project_violation) (listing project_violation "/"))
  = [("SharedCore", "FeatureLogin")].
Proof. vm_compute. reflexivity. Qed.

(** ** The graph builder: the stated properties *)

Lemma built_nodes_known json_load files x :
  x ∈ graph_nodes (built_graph json_load files) →
  x ∈ Dict.keys (built_assemblies json_load files).
Proof.
  intros [Hk | Ht]%elem_of_union.
  - apply elem_of_list_to_set in Hk. rewrite built_graph_linked in Hk.
    by apply keys_linked in Hk.
  - apply elem_of_list_to_set, list_elem_of_bind in Ht as (k & Ht & _).
    by apply (built_edge_known json_load files k x).
Qed.

(** C7 (amended). The graph gives for each module the list of its
    declared references that name known modules, in declared order and
    with repetitions kept; every key and every edge target is a known
    module; a name absent from the module set is no node of the graph,
    is on no reported cycle and in no violation. *)
Theorem C7_graph_of_known_references
    (json_load : string → string + json_data) (files : list string) :
  let graph := built_graph json_load files in
  let assemblies := built_assemblies json_load files in
  (∀ k a, Dict.get assemblies k = Some a →
     graph_get graph k = known_references assemblies (references a)) ∧
  (∀ k, k ∈ Dict.keys graph → k ∈ Dict.keys assemblies) ∧
  (∀ s t, edge graph s t → s ∈ Dict.keys assemblies ∧ t ∈ Dict.keys assemblies) ∧
  (∀ x, x ∉ Dict.keys assemblies →
     (x ∉ graph_nodes graph) ∧
     (∀ recursion_limit c,
        detect_circular_dependencies recursion_limit graph = Ok (Some c) → x ∉ c) ∧
     (∀ v, v ∈ isolation_violations graph assemblies → v.1 ≠ x ∧ v.2 ≠ x)).
Proof.
  intros graph assemblies. split_and!.
  - intros k a. apply built_graph_get.
  - intros k Hk. apply built_nodes_known. by apply key_node.
  - apply built_edge_known.
  - intros x Hx. split_and!.
    + by intros ?%built_nodes_known.
    + intros recursion_limit c Hc%detect_Some%reported_is_cycle Hin.
      destruct Hc as (Hlen & _ & Hp).
      by apply Hx, built_nodes_known, (path_nodes _ c).
    + intros [s t]. unfold graph, assemblies. rewrite isolation_violations_built.
      intros [_ Hin]%list_elem_of_filter.
      apply graph_edges_elem in Hin; [|apply built_graph_NoDup].
      apply built_edge_known in Hin as [Hs Ht]. simpl. split; by intros ->.
Qed.

(** C7, as stated, fails: a reference declared twice is an edge target
    listed twice. *)
Lemma C7_counterexample :
  let files := listing project_repeated_reference "/" in
  let graph := built_graph (disk project_repeated_reference) files in
  graph_get graph "SharedCore" = ["FeatureLogin"; "FeatureLogin"] ∧
  ¬ NoDup (graph_get graph "SharedCore").
Proof.
  assert (graph_get (built_graph (disk project_repeated_reference)
                       (listing project_repeated_reference "/")) "SharedCore"
          = ["FeatureLogin"; "FeatureLogin"]) as Hget by (vm_compute; reflexivity).
  cbv zeta. rewrite Hget. split; [reflexivity|].
  intros [Hnotin _]%NoDup_cons. apply Hnotin. left.
Qed.

Example scenario_D :
  built_graph (disk [("A.asmdef", manifest "A" ["X"])]) ["A.asmdef"] = [].
Proof. vm_compute. reflexivity. Qed.

(** C9. When two manifests declare the same name, the record of that
    name in the module set comes from the later one or from a manifest
    processed after it, and it is the record of the later one when no
    manifest after it declares the name again; the records of all other
    names, and the warnings printed, are what they would be without the
    earlier manifest, and the name keeps a single entry. *)
Theorem C9_later_manifest_replaces
    (json_load : string → string + json_data)
    (pre mid post : list string) (f1 f2 : string) (a1 a2 : asmdef) :
  (parse_asmdef json_load f1).1 = Some a1 →
  (parse_asmdef json_load f2).1 = Some a2 →
  name a1 = name a2 →
  let files := pre ++ f1 :: mid ++ f2 :: post in
  let without := pre ++ mid ++ f2 :: post in
  (∃ f a, f ∈ f2 :: post ∧ (parse_asmdef json_load f).1 = Some a ∧
     name a = name a2 ∧
     Dict.get (built_assemblies json_load files) (name a2) = Some a) ∧
  ((∀ f a, f ∈ post → (parse_asmdef json_load f).1 = Some a → name a ≠ name a2) →
     Dict.get (built_assemblies json_load files) (name a2) = Some a2) ∧
  (∀ n, n ≠ name a2 →
     Dict.get (built_assemblies json_load files) n =
     Dict.get (built_assemblies json_load without) n) ∧
  build_warnings json_load files = build_warnings json_load without ∧
  NoDup (Dict.keys (built_assemblies json_load files)).
Proof.
  intros Hp1 Hp2 Hname files without.
  assert (files = (pre ++ f1 :: mid) ++ f2 :: post) as Hsplit
    by (unfold files; by rewrite <- app_assoc).
  assert (Dict.get (collect_step json_load
            (fold_left (collect_step json_load) (pre ++ f1 :: mid) ([], [])) f2).1
            (name a2) = Some a2) as Hafter.
  { rewrite collect_step_get, Hp2. by rewrite decide_True. }
  split_and!.
  - rewrite Hsplit. unfold built_assemblies, collect_assemblies.
    rewrite fold_left_app. simpl.
    destruct (collect_fold_keeps json_load post
                (collect_step json_load
                   (fold_left (collect_step json_load) (pre ++ f1 :: mid) ([], [])) f2)
                (name a2)) as [a Hget]; [by rewrite Hafter|].
    rewrite Hget. apply collect_fold_origin in Hget as Horigin.
    destruct Horigin as [Hacc | (f & Hf & Hparse & Hn)].
    + rewrite Hafter in Hacc. injection Hacc as <-.
      exists f2, a2. split; [by left | done].
    + exists f, a. split; [by right | done].
  - intros Hpost. rewrite Hsplit. unfold built_assemblies, collect_assemblies.
    rewrite fold_left_app. simpl. by rewrite collect_fold_untouched.
  - intros n Hn. unfold files, without, built_assemblies, collect_assemblies.
    rewrite !(fold_left_app _ pre). simpl.
    apply collect_fold_agree with (n := name a2); [|done].
    intros n' Hn'. rewrite collect_step_get, Hp1.
    rewrite decide_False by congruence. done.
  - unfold files, without, build_warnings, collect_assemblies.
    rewrite !collect_fold_warnings, !bind_app, bind_cons.
    destruct (parse_asmdef json_load f1) as [o w] eqn:Hparse. simpl in Hp1. subst o.
    unfold parse_asmdef in Hparse. destruct (json_load f1); [done|].
    injection Hparse as _ <-. simpl. by rewrite ?bind_app.
  - apply built_assemblies_NoDup.
Qed.

Lemma C9_later_manifest_replaces_witness :
  let files := ["old/Core.asmdef"; "Util.asmdef"; "new/Core.asmdef"] in
  let without := ["Util.asmdef"; "new/Core.asmdef"] in
  let load := disk project_duplicate_name in
  (∃ f a, f ∈ ["new/Core.asmdef"] ∧ (parse_asmdef load f).1 = Some a ∧
     name a = "Core" ∧ Dict.get (built_assemblies load files) "Core" = Some a) ∧
  ((∀ f a, f ∈ [] → (parse_asmdef load f).1 = Some a → name a ≠ "Core") →
     Dict.get (built_assemblies load files) "Core"
       = Some (Asmdef "Core" [] "new/Core.asmdef")) ∧
  (∀ n, n ≠ "Core" →
     Dict.get (built_assemblies load files) n = Dict.get (built_assemblies load without) n) ∧
  build_warnings load files = build_warnings load without ∧
  NoDup (Dict.keys (built_assemblies load files)).
Proof.
  apply (C9_later_manifest_replaces (disk project_duplicate_name)
           [] ["Util.asmdef"] [] "old/Core.asmdef" "new/Core.asmdef"
           (Asmdef "Core" ["Util"] "old/Core.asmdef")
           (Asmdef "Core" [] "new/Core.asmdef")).
  - vm_compute. reflexivity.
  - vm_compute. reflexivity.
  - reflexivity.
Defined.

Example duplicate_name_module_set :
  built_assemblies (disk project_duplicate_name)
    ["old/Core.asmdef"; "Util.asmdef"; "new/Core.asmdef"]
  = [("Core", Asmdef "Core" [] "new/Core.asmdef");
     ("Util", Asmdef "Util" [] "Util.asmdef")].
Proof. vm_compute. reflexivity. Qed.

(** ** File discovery: properties *)

Lemma endswith_refl s : endswith s s = true.
Proof. destruct s; simpl; [done|]. by rewrite Ascii.eqb_refl, String.eqb_refl. Qed.

Lemma endswith_app a b suffix :
  endswith b suffix = true → endswith (a +:+ b) suffix = true.
Proof.
  intros Hb. induction a as [|ch a IH]; [done|].
  change (String ch a +:+ b) with (String ch (a +:+ b)).
  cbn [endswith]. rewrite IH. apply orb_true_r.
Qed.

Lemma endswith_spec s suffix :
  endswith s suffix = true ↔ ∃ front, s = front +:+ suffix.
Proof.
  split.
  - induction s as [|ch s IH]; cbn [endswith].
    + rewrite orb_false_r. intros ->%String.eqb_eq. by exists "".
    + intros [->%String.eqb_eq | Htail]%orb_true_iff; [by exists ""|].
      destruct (IH Htail) as [front ->]. by exists (String ch front).
  - intros [front ->]. apply endswith_app, endswith_refl.
Qed.

Lemma path_join_endswith a b suffix :
  endswith b suffix = true → endswith (path_join a b) suffix = true.
Proof.
  intros Hb. unfold path_join. destruct (String.prefix "/" b); [done|].
  destruct (String.eqb a "" || endswith a "/"); [by apply endswith_app|].
  apply endswith_app. by apply (endswith_app "/").
Qed.

Lemma find_asmdef_files_elem
    (os_walk : string → list (string * list string * list string))
    (root_path p : string) :
  p ∈ find_asmdef_files os_walk root_path ↔
    ∃ root dirs files file,
      (root, dirs, files) ∈ os_walk root_path ∧ file ∈ files ∧
      endswith file ".asmdef" = true ∧ p = path_join root file.
Proof.
  unfold find_asmdef_files. rewrite list_elem_of_bind. split.
  - intros ([[root dirs] files] & Hin & Hentry). simpl in Hin.
    apply list_elem_of_bind in Hin as (file & Hp & Hfile).
    destruct (endswith file ".asmdef") eqn:Hext; [|by apply elem_of_nil in Hp].
    apply list_elem_of_singleton in Hp. by exists root, dirs, files, file.
  - intros (root & dirs & files & file & Hentry & Hfile & Hext & ->).
    exists (root, dirs, files). split; [|done]. simpl.
    apply list_elem_of_bind. exists file. split; [|done].
    rewrite Hext. by apply list_elem_of_singleton.
Qed.

Lemma find_asmdef_files_suffix
    (os_walk : string → list (string * list string * list string))
    (root_path p : string) :
  p ∈ find_asmdef_files os_walk root_path → ∃ front, p = front +:+ ".asmdef".
Proof.
  intros (root & dirs & files & file & _ & _ & Hext & ->)%find_asmdef_files_elem.
  by apply endswith_spec, path_join_endswith.
Qed.

(** The paths handed to the parser: a path is returned exactly when it is
    the join of a walked directory with one of its files whose name ends
    in [.asmdef] (directories are never returned, whatever their name),
    and every returned path ends in [.asmdef] itself. *)
Theorem find_asmdef_files_spec
    (os_walk : string → list (string * list string * list string))
    (root_path : string) :
  (∀ p, p ∈ find_asmdef_files os_walk root_path ↔
     ∃ root dirs files file,
       (root, dirs, files) ∈ os_walk root_path ∧ file ∈ files ∧
       endswith file ".asmdef" = true ∧ p = path_join root file) ∧
  (∀ p, p ∈ find_asmdef_files os_walk root_path → ∃ front, p = front +:+ ".asmdef").
Proof.
  split; intros p; [apply find_asmdef_files_elem | apply find_asmdef_files_suffix].
Qed.

Example find_asmdef_files_sample :
  find_asmdef_files sample_walk "/proj" = ["/proj/Game.asmdef"; "/proj/Core/Core.asmdef"].
Proof. vm_compute. reflexivity. Qed.

(** ** The detector: further properties *)

(** Whatever the graph, a cycle returned by the detector is a cycle of
    the graph: it runs once around distinct nodes and ends on its first
    entry, consecutive entries are joined by edges, and every entry is a
    key of the graph. *)
Theorem detect_cycle_sound (recursion_limit : nat) (graph : graph_t)
    (p : list string) :
  detect_circular_dependencies recursion_limit graph = Ok (Some p) →
  ∃ x c, p = (x :: c) ++ [x] ∧ NoDup (x :: c) ∧ path_in_graph graph p ∧
    ∀ y, y ∈ p → y ∈ Dict.keys graph.
Proof.
  intros ([|x c] & (Hne & Hnd & Hp) & ->)%detect_Some; [done|].
  change (take 1 (x :: c)) with [x] in *.
  exists x, c. split; [done|]. split; [done|]. split; [done|].
  intros y Hy.
  assert (y ∈ x :: c) as [i Hi]%list_elem_of_lookup by set_solver.
  destruct (lookup_lt_is_Some_2 ((x :: c) ++ [x]) (S i)) as [z Hz].
  { apply lookup_lt_Some in Hi. rewrite length_app. simpl in *. lia. }
  eapply edge_source_key, (Hp i); [|done]. by apply lookup_app_l_Some.
Qed.

Lemma detect_cycle_sound_witness :
  ∃ x c, ["A"; "B"; "C"; "A"] = (x :: c) ++ [x] ∧ NoDup (x :: c) ∧
    path_in_graph graph_triangle ["A"; "B"; "C"; "A"] ∧
    ∀ y, y ∈ ["A"; "B"; "C"; "A"] → y ∈ Dict.keys graph_triangle.
Proof.
  apply (detect_cycle_sound default_recursion_limit graph_triangle ["A"; "B"; "C"; "A"]).
  vm_compute. reflexivity.
Defined.

(** The detector raises no [ValueError] and no [KeyError]: [path.index]
    always finds the neighbour that is on the stack and
    [rec_stack.remove] always finds the node.  The one exception it can
    raise is [RecursionError], and only on a graph with a simple path of
    more nodes than the recursion limit lets [dfs] nest calls; on every
    other graph it returns.  It never returns an empty list, so that the
    test [if cycle:] is true exactly for a returned cycle. *)
Theorem detect_raises_only_recursion_error (recursion_limit : nat) (graph : graph_t) :
  match detect_circular_dependencies recursion_limit graph with
  | Ok cycle => truthy cycle = true ↔ cycle ≠ None
  | Raise e =>
      e = RecursionError ∧ e ≠ ValueError ∧ e ≠ KeyError ∧
      ∃ q, simple_path graph q ∧ length q = S recursion_limit
  end ∧
  (depth_bounded graph recursion_limit →
     ∃ cycle, detect_circular_dependencies recursion_limit graph = Ok cycle).
Proof.
  split; [|apply detect_total].
  destruct (detect_circular_dependencies recursion_limit graph) as [[c|] | e] eqn:Hrun.
  - rewrite (truthy_reported graph c) by (by eapply detect_Some). done.
  - done.
  - apply detect_Raise in Hrun as [-> Hq]. done.
Qed.

Lemma detect_raises_only_recursion_error_witness :
  depth_bounded graph_triangle default_recursion_limit ∧
  ∃ cycle, detect_circular_dependencies default_recursion_limit graph_triangle = Ok cycle.
Proof.
  assert (depth_bounded graph_triangle default_recursion_limit) as Hbound.
  { apply few_nodes_depth_bounded. vm_compute. lia. }
  split; [exact Hbound|].
  exact (proj2 (detect_raises_only_recursion_error default_recursion_limit graph_triangle)
           Hbound).
Defined.

(** Outside the detector the search can raise: with a stack set that
    holds a node missing from [path], [path.index] fails. *)
Example dfs_inconsistent_stack :
  dfs 1 [("A", ["B"])] "A" ["A"] (Marks {["B"]} {["B"]}) = Raise ValueError.
Proof. vm_compute. reflexivity. Qed.

(** ** The builder: further properties *)

Lemma parse_asmdef_path json_load f a :
  (parse_asmdef json_load f).1 = Some a → path a = f.
Proof.
  unfold parse_asmdef. destruct (json_load f); simpl; [done|]. by intros [= <-].
Qed.

Lemma keys_linked_filter assemblies (items : list (string * asmdef)) :
  Dict.keys (linked assemblies items) =
    (filter (λ item, known_references assemblies (references item.2) ≠ []) items).*1.
Proof.
  induction items as [|[n a] items IH]; [done|].
  change (linked assemblies ((n, a) :: items)) with
    (match known_references assemblies (references a) with
     | [] => []
     | refs => [(n, refs)]
     end ++ linked assemblies items).
  unfold Dict.keys in *. rewrite fmap_app, IH, filter_cons. simpl.
  destruct (known_references assemblies (references a)) eqn:Hk.
  - by rewrite decide_False by (by intros ?).
  - by rewrite decide_True.
Qed.

Lemma linked_nonempty assemblies items k l :
  (k, l) ∈ linked assemblies items → l ≠ [].
Proof.
  unfold linked. intros ([n a] & Hin & _)%list_elem_of_bind. simpl in Hin.
  destruct (known_references assemblies (references a)) eqn:Hk;
    [by apply elem_of_nil in Hin|].
  by apply list_elem_of_singleton in Hin as [= -> ->].
Qed.

(** The keys of the graph are the modules with at least one reference to
    a known module, in the order of the module set; a module without one
    is no key (its adjacency list is read as empty), and no key is bound
    to an empty list. *)
Theorem built_graph_keys
    (json_load : string → string + json_data) (files : list string) :
  let graph := built_graph json_load files in
  let assemblies : list (string * asmdef) := built_assemblies json_load files in
  Dict.keys graph =
    (filter (λ item, known_references assemblies (references item.2) ≠ [])
       assemblies).*1 ∧
  (∀ k l, (k, l) ∈ graph → l ≠ []) ∧
  (∀ k, k ∈ Dict.keys graph ↔ graph_get graph k ≠ []).
Proof.
  intros graph assemblies. unfold graph, assemblies.
  rewrite built_graph_linked. split_and!.
  - apply keys_linked_filter.
  - apply linked_nonempty.
  - intros k. split.
    + intros [l Hget]%DictFacts.get_is_Some.
      unfold graph_get, Dict.get_default. rewrite Hget. simpl.
      by eapply linked_nonempty, DictFacts.get_Some_elem.
    + intros Hne. apply DictFacts.get_is_Some.
      unfold graph_get, Dict.get_default in Hne.
      destruct (Dict.get _ k); [eauto | done].
Qed.

(** Every record of the module set is filed under its own name and is
    what [parse_asmdef] returns for its [path], one of the files given;
    and a name is in the module set exactly when a readable file declares
    it. *)
Theorem built_assemblies_records
    (json_load : string → string + json_data) (files : list string) :
  let assemblies := built_assemblies json_load files in
  (∀ k a, Dict.get assemblies k = Some a →
     name a = k ∧ path a ∈ files ∧ (parse_asmdef json_load (path a)).1 = Some a) ∧
  (∀ k, k ∈ Dict.keys assemblies ↔
     ∃ f a, f ∈ files ∧ (parse_asmdef json_load f).1 = Some a ∧ name a = k).
Proof.
  intros assemblies.
  assert (∀ k a, Dict.get assemblies k = Some a →
            ∃ f, f ∈ files ∧ (parse_asmdef json_load f).1 = Some a ∧ name a = k) as Horigin.
  { intros k a Hget. apply collect_fold_origin in Hget as [Hnil | Hf]; done. }
  split.
  - intros k a (f & Hf & Hparse & Hname)%Horigin.
    rewrite (parse_asmdef_path _ _ _ Hparse). done.
  - intros k. split.
    + intros [a Hget]%DictFacts.get_is_Some.
      destruct (Horigin k a Hget) as (f & ? & ? & ?). by exists f, a.
    + intros (f & a & Hf & Hparse & <-). apply DictFacts.get_is_Some.
      apply list_elem_of_split in Hf as (l1 & l2 & ->).
      unfold assemblies, built_assemblies, collect_assemblies.
      rewrite fold_left_app. simpl. apply collect_fold_keeps.
      rewrite collect_step_get, Hparse. rewrite decide_True by done. eauto.
Qed.

Lemma collect_fold_fst json_load files acc acc' :
  acc.1 = acc'.1 →
  (fold_left (collect_step json_load) files acc).1 =
  (fold_left (collect_step json_load) files acc').1.
Proof.
  revert acc acc'. induction files as [|f files IH]; intros [d o] [d' o'] Heq;
    simpl in *; [done|]. subst d'. apply IH.
  by destruct (parse_asmdef json_load f) as [[a|] w].
Qed.

Lemma collect_fold_readable json_load files acc :
  (fold_left (collect_step json_load) files acc).1 =
  (fold_left (collect_step json_load) (filter (readable json_load) files) acc).1.
Proof.
  revert acc. induction files as [|f files IH]; intros acc; [done|].
  destruct (decide (readable json_load f)) as [Hr | Hr].
  - rewrite filter_cons_True by done. simpl. apply IH.
  - rewrite filter_cons_False by done. simpl. rewrite <- IH.
    apply collect_fold_fst. destruct acc as [d o]. unfold readable in Hr.
    simpl. destruct (parse_asmdef json_load f) as [[a|] w]; [|done].
    destruct Hr. simpl. eauto.
Qed.

(** An unreadable manifest is skipped with one warning and nothing else:
    the module set and the graph are those of the readable files alone,
    and the warnings are one [ErrorParsing] line for each unreadable file,
    in processing order. *)
Theorem unreadable_manifests_skipped
    (json_load : string → string + json_data) (files : list string) :
  built_assemblies json_load files =
    built_assemblies json_load (filter (readable json_load) files) ∧
  built_graph json_load files =
    built_graph json_load (filter (readable json_load) files) ∧
  build_warnings json_load files =
    omap (λ f, match json_load f with
               | inl e => Some (ErrorParsing f e)
               | inr _ => None
               end) files.
Proof.
  assert (built_assemblies json_load files =
            built_assemblies json_load (filter (readable json_load) files)) as Heq
    by apply collect_fold_readable.
  split; [done|]. split; [unfold built_graph; by rewrite <- Heq|].
  unfold build_warnings, collect_assemblies. rewrite collect_fold_warnings. simpl.
  clear Heq. induction files as [|f files IH]; [done|].
  rewrite bind_cons, IH. unfold parse_asmdef. simpl.
  by destruct (json_load f).
Qed.

Lemma collect_fold_length json_load files acc :
  length (fold_left (collect_step json_load) files acc).1 +
  length (fold_left (collect_step json_load) files acc).2
  ≤ length acc.1 + length acc.2 + length files.
Proof.
  revert acc. induction files as [|f files IH]; intros acc; simpl; [lia|].
  etrans; [apply IH|]. destruct acc as [d o]. unfold collect_step, parse_asmdef.
  destruct (json_load f) as [e|data]; simpl.
  - rewrite length_app. simpl. lia.
  - rewrite app_nil_r.
    pose proof (DictFacts.keys_set d (default "" (data_name data))
      {| name := default "" (data_name data);
         references := default [] (data_references data); path := f |}) as Hk.
    apply Permutation_length in Hk. unfold Dict.keys in Hk.
    rewrite length_fmap in Hk. rewrite Hk.
    destruct (Dict.mem d _); simpl; rewrite length_fmap; lia.
Qed.

(** The modules discovered and the warnings printed together never
    outnumber the files found: each file gives at most one module or one
    warning, and a repeated name gives no new module. *)
Theorem discovered_at_most_found
    (json_load : string → string + json_data) (files : list string) :
  length (built_assemblies json_load files) + length (build_warnings json_load files)
    ≤ length files ∧
  length (built_assemblies json_load files)
    ≤ length (filter (readable json_load) files).
Proof.
  split.
  - pose proof (collect_fold_length json_load files ([], [])) as H. simpl in H.
    exact H.
  - unfold built_assemblies, collect_assemblies. rewrite collect_fold_readable.
    pose proof (collect_fold_length json_load
                  (filter (readable json_load) files) ([], [])) as H.
    simpl in H. lia.
Qed.

Lemma first_occurrences_elem l x : x ∈ first_occurrences l ↔ x ∈ l.
Proof.
  unfold first_occurrences.
  by rewrite elem_of_reverse, elem_of_remove_dups, elem_of_reverse.
Qed.

Lemma first_occurrences_snoc l x :
  first_occurrences (l ++ [x]) =
    if decide (x ∈ l) then first_occurrences l else first_occurrences l ++ [x].
Proof.
  unfold first_occurrences. rewrite reverse_snoc. simpl.
  destruct (decide (x ∈ l)) as [Hin | Hout]; case_decide as Hrev;
    rewrite elem_of_reverse in Hrev; try done.
  by rewrite reverse_cons.
Qed.

(** The module set lists the declared names in the order of their first
    declaration: a manifest that repeats a name replaces the record and
    leaves the name at its earlier position. *)
Theorem module_order_first_declaration
    (json_load : string → string + json_data) (files : list string) :
  Dict.keys (built_assemblies json_load files) =
    first_occurrences (declared_names json_load files).
Proof.
  unfold built_assemblies, collect_assemblies, declared_names.
  induction files as [|f files IH] using rev_ind; [done|].
  rewrite fold_left_app, omap_app. simpl.
  destruct (fold_left (collect_step json_load) files ([], [])) as [d out] eqn:Hfold.
  simpl in IH. unfold collect_step.
  destruct (parse_asmdef json_load f) as [[a|] w]; simpl.
  - rewrite first_occurrences_snoc, <- IH.
    destruct (decide (name a ∈ omap _ files)) as [Hin | Hout].
    + apply DictFacts.keys_set_in. rewrite IH. by apply first_occurrences_elem.
    + rewrite DictFacts.set_notin.
      * unfold Dict.keys. by rewrite fmap_app.
      * rewrite IH. by rewrite first_occurrences_elem.
  - by rewrite app_nil_r.
Qed.

Example module_order_duplicate :
  Dict.keys (built_assemblies (disk project_duplicate_name)
               ["old/Core.asmdef"; "Util.asmdef"; "new/Core.asmdef"])
  = ["Core"; "Util"].
Proof. vm_compute. reflexivity. Qed.

(** ** Classification by name *)

Lemma prefix_spec (p s : string) :
  String.prefix p s = true ↔ ∃ back, s = p +:+ back.
Proof.
  revert s. induction p as [|ch p IH]; intros s.
  - split; [intros _; by exists s | intros _; by destruct s].
  - destruct s as [|ch' s]; simpl.
    + split; [done | by intros [back ?]].
    + destruct (Ascii.ascii_dec ch ch') as [-> | Hne].
      * rewrite IH. split; intros [back Hs]; exists back; [by rewrite Hs | by injection Hs].
      * split; [done | intros [back Hs]; by injection Hs].
Qed.

Lemma contains_spec (sub s : string) :
  contains sub s = true ↔ ∃ front back, s = front +:+ sub +:+ back.
Proof.
  induction s as [|ch s IH]; cbn [contains].
  - rewrite orb_false_r, prefix_spec. split.
    + intros [back ->]. by exists "", back.
    + intros ([|ch front] & back & Hs); [by exists back | done].
  - rewrite orb_true_iff, prefix_spec, IH. split.
    + intros [[back ->] | (front & back & ->)];
        [by exists "", back | by exists (String ch front), back].
    + intros ([|ch' front] & back & Hs).
      * left. by exists back.
      * right. injection Hs as -> ->. by exists front, back.
Qed.

(** A module is shared exactly when ["Shared"] occurs somewhere in its
    name, and a feature exactly when neither ["Shared"] nor ["Unity."]
    occurs anywhere in it: the tests are on substrings, at any position
    and case-sensitive, and never on a prefix. *)
Theorem classification_by_substring (n : string) :
  (is_shared n = true ↔ ∃ front back, n = front +:+ "Shared" +:+ back) ∧
  (is_feature n = true ↔
     (¬ ∃ front back, n = front +:+ "Shared" +:+ back) ∧
     (¬ ∃ front back, n = front +:+ "Unity." +:+ back)) ∧
  (is_shared n = true → is_feature n = false).
Proof.
  unfold is_shared, is_feature. rewrite <- !contains_spec. split_and!.
  - done.
  - rewrite negb_true_iff, orb_false_iff, !not_true_iff_false. done.
  - by intros ->.
Qed.

Example unity_inside_name : is_feature "Studio.Unity.Tools" = false.
Proof. reflexivity. Qed.

Example shared_lowercase : is_shared "Game.shared" = false.
Proof. reflexivity. Qed.

(** ** The whole run: further properties *)



(** With the files that [find_asmdef_files] discovers, every record of
    the module set comes from a file whose path ends in [.asmdef]. *)
Theorem discovered_records_from_asmdef_files
    (os_walk : string → list (string * list string * list string))
    (json_load : string → string + json_data) (root_path k : string) (a : asmdef) :
  Dict.get (built_assemblies json_load (find_asmdef_files os_walk root_path)) k = Some a →
  path a ∈ find_asmdef_files os_walk root_path ∧ ∃ front, path a = front +:+ ".asmdef".
Proof.
  intros Hget. apply collect_fold_origin in Hget as [Hnil | (f & Hf & Hparse & _)];
    [done|].
  rewrite (parse_asmdef_path _ _ _ Hparse). split; [done|].
  by eapply find_asmdef_files_suffix.
Qed.

Lemma discovered_records_from_asmdef_files_witness :
  path (Asmdef "Core" [] "/proj/Core/Core.asmdef")
    ∈ find_asmdef_files sample_walk "/proj" ∧
  ∃ front, path (Asmdef "Core" [] "/proj/Core/Core.asmdef") = front +:+ ".asmdef".
Proof.
  apply (discovered_records_from_asmdef_files sample_walk
           (disk [("/proj/Game.asmdef", manifest "Game" ["Core"]);
                  ("/proj/Core/Core.asmdef", manifest "Core" [])])
           "/proj" "Core").
  vm_compute. reflexivity.
Defined.

(** ** References to names outside the module set *)

Section Agreement.
Variable reference_set : Dict.t asmdef.
Variables json_load json_load' : string → string + json_data.

Lemma set_agrees (d d' : list (string * asmdef)) k a a' :
  Forall2 (record_agrees reference_set) d d' →
  record_agrees reference_set (k, a) (k, a') →
  Forall2 (record_agrees reference_set) (Dict.set d k a) (Dict.set d' k a').
Proof.
  intros Hd Hnew. induction Hd as [|[k1 v1] [k2 v2] d d' Hhead Hd IH]; simpl.
  - by constructor.
  - destruct Hhead as [Hk Hrest]. simpl in Hk. subst k2.
    case_decide; constructor; try done; by split.
Qed.

Lemma collect_step_agrees acc acc' f :
  agree_on_known reference_set (json_load f) (json_load' f) →
  Forall2 (record_agrees reference_set) acc.1 acc'.1 → acc.2 = acc'.2 →
  Forall2 (record_agrees reference_set)
    (collect_step json_load acc f).1 (collect_step json_load' acc' f).1 ∧
  (collect_step json_load acc f).2 = (collect_step json_load' acc' f).2.
Proof.
  destruct acc as [d o], acc' as [d' o']. simpl. intros Hagree Hd ->.
  unfold collect_step, parse_asmdef, agree_on_known in *.
  destruct (json_load f) as [e|data], (json_load' f) as [e'|data']; simpl; try done.
  - by subst e'.
  - destruct Hagree as [Hname Hrefs]. split; [|done]. rewrite <- Hname.
    apply set_agrees; [done|]. by split.
Qed.

Lemma collect_fold_agrees files acc acc' :
  (∀ f, f ∈ files → agree_on_known reference_set (json_load f) (json_load' f)) →
  Forall2 (record_agrees reference_set) acc.1 acc'.1 → acc.2 = acc'.2 →
  Forall2 (record_agrees reference_set)
    (fold_left (collect_step json_load) files acc).1
    (fold_left (collect_step json_load') files acc').1 ∧
  (fold_left (collect_step json_load) files acc).2 =
  (fold_left (collect_step json_load') files acc').2.
Proof.
  revert acc acc'. induction files as [|f files IH]; intros acc acc' Hagree Hd Ho;
    simpl; [done|].
  destruct (collect_step_agrees acc acc' f) as [Hd' Ho']; [apply Hagree; left | done..|].
  apply IH; [|done..]. intros g Hg. apply Hagree. by right.
Qed.

End Agreement.

Lemma agreeing_keys reference_set (d d' : list (string * asmdef)) :
  Forall2 (record_agrees reference_set) d d' → Dict.keys d = Dict.keys d'.
Proof.
  unfold Dict.keys. induction 1 as [|x y d d' [Hk _] _ IH]; [done|].
  rewrite !fmap_cons. by f_equal.
Qed.

Lemma known_references_keys (d d' : Dict.t asmdef) refs :
  Dict.keys d = Dict.keys d' → known_references d refs = known_references d' refs.
Proof.
  intros Hkeys. induction refs as [|r refs IH]; [done|].
  rewrite !known_references_cons, IH.
  assert (Dict.mem d r = Dict.mem d' r) as ->; [|done].
  apply bool_decide_ext. by rewrite !DictFacts.get_is_Some, Hkeys.
Qed.

Lemma linked_agrees (d d' : Dict.t asmdef) (items items' : list (string * asmdef)) :
  Dict.keys d = Dict.keys d' → Forall2 (record_agrees d) items items' →
  linked d items = linked d' items'.
Proof.
  intros Hkeys. induction 1 as [|[k a] [k' a'] items items' (Hk & _ & Hrefs) _ IH];
    [done|]. simpl in Hk, Hrefs. subst k'.
  unfold linked in *. rewrite !bind_cons, IH. simpl.
  by rewrite <- (known_references_keys d d'), Hrefs.
Qed.

(** References to names outside the module set change nothing: two sets
    of manifests that declare the same names and the same references to
    known modules (and fail to load alike) give the same graph, the same
    printed lines and the same exit code. *)
Theorem external_references_irrelevant (recursion_limit : nat) (getcwd : string)
    (find_asmdef_files : string → list string)
    (json_load json_load' : string → string + json_data) :
  let files := find_asmdef_files getcwd in
  (∀ f, f ∈ files →
     agree_on_known (built_assemblies json_load files) (json_load f) (json_load' f)) →
  built_graph json_load' files = built_graph json_load files ∧
  main recursion_limit getcwd find_asmdef_files json_load'
    = main recursion_limit getcwd find_asmdef_files json_load.
Proof.
  intros files Hagree.
  destruct (collect_fold_agrees (built_assemblies json_load files)
              json_load json_load' files ([], []) ([], [])) as [Hrecords Hwarn];
    [done | constructor | done |].
  fold (collect_assemblies json_load files) in Hrecords, Hwarn.
  fold (collect_assemblies json_load' files) in Hrecords, Hwarn.
  fold (built_assemblies json_load files) in Hrecords.
  fold (built_assemblies json_load' files) in Hrecords.
  fold (build_warnings json_load files) in Hwarn.
  fold (build_warnings json_load' files) in Hwarn.
  pose proof (agreeing_keys _ _ _ Hrecords) as Hkeys.
  assert (built_graph json_load' files = built_graph json_load files) as Hgraph.
  { rewrite !built_graph_linked. symmetry. by apply linked_agrees. }
  split; [done|].
  unfold main. fold files. rewrite !build_dependency_graph_eq, Hgraph, <- Hwarn.
  unfold validate_shared_namespace_isolation, isolation_violations,
    shared_assemblies, feature_assemblies.
  rewrite <- Hkeys.
  assert (length (built_assemblies json_load' files) =
          length (built_assemblies json_load files)) as ->; [|done].
  symmetry. by eapply Forall2_length.
Qed.

Lemma external_references_irrelevant_witness :
  built_graph (disk project_without_external) (listing project_with_external "/")
    = built_graph (disk project_with_external) (listing project_with_external "/") ∧
  main default_recursion_limit "/" (listing project_with_external)
      (disk project_without_external)
    = main default_recursion_limit "/" (listing project_with_external)
        (disk project_with_external).
Proof.
  apply (external_references_irrelevant default_recursion_limit "/" (listing project_with_external)
           (disk project_with_external) (disk project_without_external)).
  intros f Hf. apply elem_of_cons in Hf as [-> | Hf].
  - vm_compute. split; reflexivity.
  - apply elem_of_cons in Hf as [-> | Hf].
    + vm_compute. split; reflexivity.
    + apply elem_of_nil in Hf. destruct Hf.
Defined.

(** ** The listing of discovered assemblies *)

Lemma name_le_total : Total name_le.
Proof. intros a b. apply String.leb_total. Qed.

Lemma assembly_lines_warnings json_load files :
  assembly_lines (build_warnings json_load files) = [].
Proof.
  pose proof (build_warnings_lines json_load files) as Hlines.
  induction (build_warnings json_load files) as [|l ws IH]; [done|].
  destruct (Hlines l) as (f & e & ->); [left|]. simpl.
  apply IH. intros l' Hl'. apply Hlines. by right.
Qed.

Lemma assembly_lines_listing (deps : string → nat) names :
  assembly_lines ((λ n, AssemblyLine n (deps n)) <$> names) =
    (λ n, (n, deps n)) <$> names.
Proof.
  unfold assembly_lines. induction names as [|n names IH]; [done|].
  rewrite !fmap_cons. cbn [omap list_omap]. by f_equal.
Qed.

Lemma assembly_lines_violations vs : assembly_lines (ViolationLine <$> vs) = [].
Proof. by induction vs. Qed.

Lemma assembly_lines_preamble getcwd find_asmdef_files json_load :
  assembly_lines (preamble getcwd find_asmdef_files json_load) =
    (λ n, (n, length (graph_get
                        (built_graph json_load (find_asmdef_files getcwd)) n)))
      <$> sorted (Dict.keys (built_assemblies json_load (find_asmdef_files getcwd))).
Proof.
  unfold preamble, assembly_lines. rewrite !omap_app.
  fold (assembly_lines (build_warnings json_load (find_asmdef_files getcwd))).
  rewrite assembly_lines_warnings. simpl. rewrite app_nil_r.
  apply (assembly_lines_listing
           (λ n, length (graph_get (built_graph json_load (find_asmdef_files getcwd)) n))).
Qed.

(** The report lists every discovered assembly exactly once, in
    ascending order of the names, each with the number of its references
    to known modules (repetitions counted). *)
Theorem assembly_listing (recursion_limit : nat) (getcwd : string)
    (find_asmdef_files : string → list string)
    (json_load : string → string + json_data) :
  let assemblies := built_assemblies json_load (find_asmdef_files getcwd) in
  let out := (main recursion_limit getcwd find_asmdef_files json_load).1 in
  Sorted name_le (assembly_lines out).*1 ∧
  (assembly_lines out).*1 ≡ₚ Dict.keys assemblies ∧
  NoDup (assembly_lines out).*1 ∧
  ∀ n deps, (n, deps) ∈ assembly_lines out ↔
    ∃ a, Dict.get assemblies n = Some a ∧
         deps = length (known_references assemblies (references a)).
Proof.
  intros assemblies out.
  set (graph := built_graph json_load (find_asmdef_files getcwd)).
  assert (assembly_lines out =
            (λ n, (n, length (graph_get graph n))) <$> sorted (Dict.keys assemblies))
    as Hlines.
  { unfold out.
    pose proof (main_cases recursion_limit getcwd find_asmdef_files json_load) as Hmain.
    destruct (detect_circular_dependencies _ _) as [[c|] | e];
      [destruct Hmain as [_ ->] | rewrite Hmain | destruct Hmain as [_ ->]];
      [|destruct (validate_shared_namespace_isolation _ _) as [|v vs]|];
      cbn [fst]; unfold assembly_lines; rewrite ?omap_app;
      fold (assembly_lines (preamble getcwd find_asmdef_files json_load));
      rewrite assembly_lines_preamble; fold graph; fold assemblies.
    - simpl. by rewrite app_nil_r.
    - simpl. by rewrite app_nil_r.
    - fold (assembly_lines (ViolationLine <$> v :: vs)).
      rewrite assembly_lines_violations. simpl. by rewrite app_nil_r.
    - done. }
  assert ((assembly_lines out).*1 = sorted (Dict.keys assemblies)) as Hnames.
  { rewrite Hlines, <- list_fmap_compose. apply list_fmap_id. }
  rewrite Hnames. split_and!.
  - apply (@Sorted_merge_sort _ name_le _ name_le_total).
  - apply merge_sort_Permutation.
  - unfold sorted. rewrite merge_sort_Permutation. apply built_assemblies_NoDup.
  - intros n deps. rewrite Hlines, list_elem_of_fmap. split.
    + intros (n' & [= -> ->] & Hin).
      unfold sorted in Hin. rewrite merge_sort_Permutation in Hin.
      apply DictFacts.get_is_Some in Hin as [a Ha]. exists a. split; [done|].
      unfold graph. by rewrite (built_graph_get _ _ _ _ Ha).
    + intros (a & Ha & ->). exists n. split.
      * unfold graph. by rewrite (built_graph_get _ _ _ _ Ha).
      * unfold sorted. rewrite merge_sort_Permutation.
        apply DictFacts.get_is_Some. eauto.
Qed.

(** Unreadable manifests never change the verdict: the run ends as the
    run over the readable files alone does, with the same exit code. *)
Theorem parse_errors_keep_verdict (recursion_limit : nat) (getcwd : string)
    (find_asmdef_files : string → list string)
    (json_load : string → string + json_data) :
  let run := main recursion_limit getcwd find_asmdef_files json_load in
  let run' :=
    main recursion_limit getcwd
      (λ root_path, filter (readable json_load) (find_asmdef_files root_path))
      json_load in
  run.2 = run'.2 ∧ exit_status run.2 = exit_status run'.2.
Proof.
  intros run run'.
  assert (run.2 = run'.2) as Hsame; [|by rewrite Hsame].
  unfold run, run'.
  pose proof (main_cases recursion_limit getcwd find_asmdef_files json_load) as Hmain.
  pose proof (main_cases recursion_limit getcwd
                (λ root_path, filter (readable json_load) (find_asmdef_files root_path))
                json_load) as Hmain'.
  assert (built_assemblies json_load
            (filter (readable json_load) (find_asmdef_files getcwd)) =
          built_assemblies json_load (find_asmdef_files getcwd)) as Hsame
    by (symmetry; apply collect_fold_readable).
  unfold built_graph in Hmain'. rewrite Hsame in Hmain'.
  fold (built_graph json_load (find_asmdef_files getcwd)) in Hmain'.
  destruct (detect_circular_dependencies _ _) as [[c|] | e].
  - destruct Hmain as [_ ->], Hmain' as [_ ->]. done.
  - rewrite Hmain, Hmain'. by destruct (validate_shared_namespace_isolation _ _).
  - destruct Hmain as [_ ->], Hmain' as [_ ->]. done.
Qed.

(** ** The search as a procedure on the two marker sets *)

(** A search started on an unvisited node, with the stack holding the
    nodes of the path that led to it, either returns or ends in
    [RecursionError].  When it returns, the visited set has only grown and
    contains the node; when no cycle is found the recursion stack is
    exactly what it was before the call, and a returned list is a cycle of
    the graph.  It ends in [RecursionError] only when the graph has a
    simple path of more nodes than the frames left, and returns when the
    graph has none. *)
Theorem dfs_restores_stack (frames : nat) (graph : graph_t) (node : string)
    (p : list string) (V : gset string) :
  node ∈ graph_nodes graph → node ∉ V → list_to_set p ⊆ V → NoDup p →
  path_in_graph graph (p ++ [node]) →
  settled graph (V ∖ list_to_set p) →
  match dfs frames graph node (p ++ [node]) (Marks V (list_to_set p)) with
  | Ok (r, m') =>
      V ∪ {[node]} ⊆ visited m' ∧
      (r = None → rec_stack m' = list_to_set p) ∧
      (∀ c, r = Some c → is_cycle graph c)
  | Raise e =>
      e = RecursionError ∧
      ∃ q, simple_path graph q ∧ length q = length p + S frames
  end ∧
  (depth_bounded graph (length p + frames) →
     ∃ r m', dfs frames graph node (p ++ [node]) (Marks V (list_to_set p)) = Ok (r, m')).
Proof.
  intros Hnode Hfresh Hstack Hnd Hpath Hset.
  pose proof (dfs_correct graph frames node p V Hfresh Hstack Hnd Hpath Hset Hnode)
    as Hcall.
  destruct (dfs frames graph node (p ++ [node]) (Marks V (list_to_set p)))
    as [[r m'] | e].
  - destruct Hcall as [Hsub Hpost]. split; [|eauto]. split; [done|]. split.
    + intros ->. by destruct Hpost.
    + intros c ->. by apply reported_is_cycle.
  - split; [done|]. intros Hbound. destruct Hcall as [_ (q & Hq & Hlen)].
    apply Hbound in Hq. lia.
Qed.

Lemma dfs_restores_stack_witness :
  match dfs default_recursion_limit graph_chain "B" (["A"] ++ ["B"])
          (Marks {["A"]} (list_to_set ["A"])) with
  | Ok (r, m') =>
      {["A"]} ∪ {["B"]} ⊆ visited m' ∧
      (r = None → rec_stack m' = list_to_set ["A"]) ∧
      (∀ c, r = Some c → is_cycle graph_chain c)
  | Raise e =>
      e = RecursionError ∧
      ∃ q, simple_path graph_chain q ∧ length q = length ["A"] + S default_recursion_limit
  end ∧
  (depth_bounded graph_chain (length ["A"] + default_recursion_limit) →
     ∃ r m', dfs default_recursion_limit graph_chain "B" (["A"] ++ ["B"])
               (Marks {["A"]} (list_to_set ["A"])) = Ok (r, m')).
Proof.
  apply (dfs_restores_stack default_recursion_limit graph_chain "B" ["A"] {["A"]}).
  - vm_compute. set_solver.
  - set_solver.
  - set_solver.
  - apply NoDup_singleton.
  - simpl. apply path_cons. split; [|apply path_singleton].
    unfold edge. vm_compute. left.
  - assert ({["A"]} ∖ list_to_set ["A"] = (∅ : gset string)) as -> by set_solver.
    apply settled_empty.
Defined.

(** Whether a cycle is found depends on the edges alone, as long as the
    search stays within the recursion limit: of two graphs with the same
    edges, whatever the order and the repetitions in their adjacency
    lists, one never yields a cycle where the other yields none, and when
    neither has a simple path of more nodes than the recursion limit lets
    [dfs] nest calls, both yield a cycle or both yield none. *)
Theorem detect_verdict_depends_on_edges (recursion_limit recursion_limit' : nat)
    (g g' : graph_t) :
  (∀ s t, edge g s t ↔ edge g' s t) →
  (detect_circular_dependencies recursion_limit g = Ok None →
     ∀ c, detect_circular_dependencies recursion_limit' g' ≠ Ok (Some c)) ∧
  (depth_bounded g recursion_limit → depth_bounded g' recursion_limit' →
     (detect_circular_dependencies recursion_limit g = Ok None ↔
      detect_circular_dependencies recursion_limit' g' = Ok None)).
Proof.
  intros Hedges.
  assert (∀ c, is_cycle g c ↔ is_cycle g' c) as Hcyc.
  { intros c. unfold is_cycle, path_in_graph.
    split; intros (? & ? & Hp); (split_and!; [done..|]); intros i a b Ha Hb;
      apply Hedges; eauto. }
  split.
  - intros Hnone%detect_None c Hc%detect_Some%reported_is_cycle.
    apply (Hnone c). by apply Hcyc.
  - intros Hbound Hbound'.
    split; intros Hnone%detect_None; apply detect_acyclic; try done; intros c Hc;
      apply (Hnone c); by apply Hcyc.
Qed.

Lemma detect_verdict_depends_on_edges_witness :
  (detect_circular_dependencies default_recursion_limit [("A", ["B"; "A"; "B"])] = Ok None →
     ∀ c, detect_circular_dependencies default_recursion_limit [("A", ["A"; "B"])]
          ≠ Ok (Some c)) ∧
  (depth_bounded [("A", ["B"; "A"; "B"])] default_recursion_limit →
   depth_bounded [("A", ["A"; "B"])] default_recursion_limit →
     (detect_circular_dependencies default_recursion_limit [("A", ["B"; "A"; "B"])] = Ok None ↔
      detect_circular_dependencies default_recursion_limit [("A", ["A"; "B"])] = Ok None)).
Proof.
  apply (detect_verdict_depends_on_edges default_recursion_limit default_recursion_limit).
  intros s t. unfold edge, graph_get, Dict.get_default. simpl.
  case_decide; simpl; [|done]. rewrite !elem_of_cons. tauto.
Defined.
